(** * cloudlus: the job-dispatch server and the sample interpolation utility

    A shallow embedding of the dispatcher loop of the cloudlus server
    (Server.dispatcher and the HTTP / RPC adapters around it), of convid,
    and of scen.interpolate, with the properties of the specification
    stated and proved over these definitions. *)

From Stdlib Require Import ZArith QArith Qround Ascii String List Lia.
From stdpp Require Import gmap strings list fin_maps pretty.

Local Open Scope Z_scope.

(** ** Hexadecimal text (encoding/hex as convid and the handlers use it) *)

Module hex.

Definition byte_of (c : ascii) : Z := Z.of_N (N_of_ascii c).

(** fromHexChar: the value of one hexadecimal digit, in either case. *)
Definition fromHexChar (c : ascii) : option Z :=
  let b := byte_of c in
  if (48 <=? b) && (b <=? 57) then Some (b - 48)
  else if (97 <=? b) && (b <=? 102) then Some (b - 97 + 10)
  else if (65 <=? b) && (b <=? 70) then Some (b - 65 + 10)
  else None.

Definition is_hex_digit (c : ascii) : bool :=
  match fromHexChar c with Some _ => true | None => false end.

(** Decode consumes the source two characters at a time; it returns an
    error (here [None]) on a character that is no hex digit and on a
    source of odd length.  convid only compares the error with nil, so
    the error value itself is not kept. *)
Fixpoint Decode (src : list ascii) : option (list Z) :=
  match src with
  | [] => Some []
  | p :: src' =>
      match src' with
      | [] => None
      | q :: rest =>
          match fromHexChar p, fromHexChar q with
          | Some a, Some b =>
              match Decode rest with
              | Some bs => Some (Z.lor (Z.shiftl a 4) b :: bs)
              | None => None
              end
          | _, _ => None
          end
      end
  end.

Definition DecodeString (s : string) : option (list Z) :=
  Decode (list_ascii_of_string s).

(** The text [%x] prints for a byte array: two lowercase digits per byte. *)
Definition hexdigit (n : Z) : ascii :=
  if n <? 10 then ascii_of_N (Z.to_N (48 + n))
  else ascii_of_N (Z.to_N (97 + (n - 10))).

Fixpoint EncodeToString (bs : list Z) : string :=
  match bs with
  | [] => EmptyString
  | b :: bs' =>
      String (hexdigit (Z.shiftr b 4))
        (String (hexdigit (Z.land b 15)) (EncodeToString bs'))
  end.

Definition all_hex (s : string) : bool :=
  forallb is_hex_digit (list_ascii_of_string s).

End hex.

(** ** The job server *)

Module cloudlus.

(** Pointers to Job objects and channels are names; a nil pointer is the
    [None] of [option loc]. *)
Abbreviation loc := positive.
Abbreviation chan := positive.

(** Modelled from the spec: the Job type and its Status constants (their
    declarations are not among the sources).  Id is the [16]byte key,
    Submitted the enqueue time, Payload the opaque input and Outfiles the
    named output blobs. *)
Inductive JobStatus :=
  | StatusQueued
  | StatusRunning
  | StatusComplete
  | StatusFailed.

Record File := { Name : string; Data : list Z }.

Record Job := {
  Id : list Z;
  Status : JobStatus;
  Submitted : Z;
  Payload : list Z;
  Outfiles : list File
}.

#[global] Instance JobStatus_eq_dec : EqDecision JobStatus.
Proof. solve_decision. Defined.

Definition set_Status (st : JobStatus) (j : Job) : Job :=
  {| Id := Id j; Status := st; Submitted := Submitted j;
     Payload := Payload j; Outfiles := Outfiles j |}.

Definition set_Submitted (t : Z) (j : Job) : Job :=
  {| Id := Id j; Status := Status j; Submitted := t;
     Payload := Payload j; Outfiles := Outfiles j |}.

(** The two field updates of the submit case: j.Status = StatusQueued and
    j.Submitted = time.Now(). *)
Definition submitted (now : Z) (job : Job) : Job :=
  set_Submitted now (set_Status StatusQueued job).

(** The order of the status state machine: Queued, Running, then the two
    final states side by side. *)
Definition rank (st : JobStatus) : nat :=
  match st with
  | StatusQueued => 0
  | StatusRunning => 1
  | StatusComplete | StatusFailed => 2
  end.

Definition final (st : JobStatus) : bool :=
  match st with
  | StatusComplete | StatusFailed => true
  | _ => false
  end.

(** *** The Result Cache *)

(** Modelled from the spec: the Result Cache is the LRU cache of an
    external package (cache.NewLRUCache, Set, Get), bounded by the total
    size of its values and evicting the least recently used entry first.
    [entries] runs from the least to the most recently used entry; Set and
    a successful Get make their key the most recent one. *)
Record entry := Entry { e_key : list Z; e_val : loc; e_size : Z }.

Record LRUCache := { entries : list entry; capacity : Z }.

Definition total (es : list entry) : Z :=
  foldr (fun e acc => e_size e + acc) 0 es.

Fixpoint evict (cap : Z) (es : list entry) : list entry :=
  match es with
  | [] => []
  | e :: es' => if cap <? total es then evict cap es' else es
  end.

Definition has_key (k : list Z) (e : entry) : bool :=
  bool_decide (e_key e = k).

Definition without (k : list Z) (es : list entry) : list entry :=
  List.filter (fun e => negb (has_key k e)) es.

Definition NewLRUCache (cap : Z) : LRUCache :=
  {| entries := []; capacity := cap |}.

Definition lru_Set (c : LRUCache) (k : list Z) (v : loc) (sz : Z) : LRUCache :=
  {| entries := evict (capacity c) (without k (entries c) ++ [Entry k v sz]);
     capacity := capacity c |}.

Definition lru_Get (c : LRUCache) (k : list Z) : option loc * LRUCache :=
  match List.find (has_key k) (entries c) with
  | Some e =>
      (Some (e_val e),
       {| entries := without k (entries c) ++ [e]; capacity := capacity c |})
  | None => (None, c)
  end.

(** What Get would answer, without touching the recency order. *)
Definition lru_peek (c : LRUCache) (k : list Z) : option loc :=
  fst (lru_Get c k).

(** *** Server state and the messages of the dispatcher *)

(** The fields of Server the dispatcher owns, and [store], the Job objects
    the *Job pointers of the queue, the cache and the messages refer to. *)
Record Server := {
  queue : list loc;
  alljobs : LRUCache;
  submitchans : gmap (list Z) chan;
  store : gmap loc Job
}.

Definition MB : Z := Z.shiftl 1 20.

Definition NewServer : Server :=
  {| queue := []; alljobs := NewLRUCache (500 * MB);
     submitchans := ∅; store := ∅ |}.

(** One constructor per channel the select statement receives from:
    jobSubmit{J, Result}, jobRequest{Id, Resp} on retrievejobs and on
    statjobs, *Job on pushjobs, workRequest on fetchjobs. *)
Inductive msg :=
  | SubmitJobs (J : loc) (Result : option chan)
  | RetrieveJobs (id : list Z) (Resp : chan)
  | StatJobs (id : list Z) (Resp : chan)
  | PushJobs (j : loc)
  | FetchJobs (req : chan).

(** A value sent on a channel by the dispatcher: [ch <- v]. *)
Inductive send := Send (ch : chan) (v : option loc).

(** The first value a receiver blocked on [ch] gets from the sends. *)
Fixpoint recv (ch : chan) (out : list send) : option (option loc) :=
  match out with
  | [] => None
  | Send ch' v :: out' => if decide (ch' = ch) then Some v else recv ch out'
  end.

Inductive result (A : Type) :=
  | Ok (a : A)
  | Err (e : string).
Arguments Ok {A} a.
Arguments Err {A} e.

(** A handler's reply: http.Error(w, msg, code), a 200 reply with a text
    body, a 200 reply whose body is the buffer the zip writer filled (the
    entries it holds), or the reply left as it stood when the handler
    returned after logging only. *)
Inductive response :=
  | HttpError (code : Z) (message : string)
  | HttpText (headers : list (string * string)) (body : string)
  | HttpArchive (headers : list (string * string)) (files : list File)
  | HttpAborted (headers : list (string * string)).

(** convid: decode the hexadecimal text and copy the bytes into a zeroed
    [16]byte; copy moves min(16, len(uid)) bytes.  [None] is the error
    return. *)
Definition copy16 (uid : list Z) : list Z :=
  take 16 uid ++ replicate (16 - List.length uid)%nat 0.

Definition convid (s : string) : option (list Z) :=
  match hex.DecodeString s with
  | None => None
  | Some uid => Some (copy16 uid)
  end.

(** What the calls a handler makes on the zip writer and on the response
    writer report: [None] for a nil error, otherwise the error text.
    ReadAll on the request body is the [result] the handler is given. *)
Record iofaults := {
  zip_Create : string -> option string;
  zip_Write : list Z -> option string;
  zip_Close : option string;
  io_Copy : option string
}.

Definition no_faults : iofaults :=
  {| zip_Create := fun _ => None; zip_Write := fun _ => None;
     zip_Close := None; io_Copy := None |}.

(** The zip writer of Go's archive/zip over a buffer, seen as the entries
    the buffer holds, in the order they were created, each with the bytes
    written to it so far.  Create(name) starts an entry with that name and
    returns the writer of its contents; Write on that writer appends to
    the entry, which is the last one. *)
Definition zipWriter := list File.

Definition NewWriter : zipWriter := [].

Fixpoint write_last (data : list Z) (zw : zipWriter) : zipWriter :=
  match zw with
  | [] => []
  | f :: zw' =>
      match zw' with
      | [] => [{| Name := Name f; Data := Data f ++ data |}]
      | _ :: _ => f :: write_last data zw'
      end
  end.

Definition Writer_Create (io : iofaults) (name : string) (zw : zipWriter)
    : result zipWriter :=
  match zip_Create io name with
  | Some e => Err e
  | None => Ok (zw ++ [{| Name := name; Data := [] |}])
  end.

Definition Writer_Write (io : iofaults) (data : list Z) (zw : zipWriter)
    : result zipWriter :=
  match zip_Write io data with
  | Some e => Err e
  | None => Ok (write_last data zw)
  end.

(** The loop of retrieve over j.Outfiles: for each file a Create and a
    Write; the first error ends the loop (and the handler).  Otherwise
    the result is the writer after the last file. *)
Fixpoint zip_all (io : iofaults) (fs : list File) (zipbuf : zipWriter)
    : result zipWriter :=
  match fs with
  | [] => Ok zipbuf
  | fd :: fs' =>
      match Writer_Create io (Name fd) zipbuf with
      | Err e => Err e
      | Ok zipbuf1 =>
          match Writer_Write io (Data fd) zipbuf1 with
          | Err e => Err e
          | Ok zipbuf2 => zip_all io fs' zipbuf2
          end
      end
  end.

Definition dquote : string := String (ascii_of_nat 34) EmptyString.

(** s[n:] of a Go string; [None] when n is out of range. *)
Definition slice_from (n : nat) (s : string) : option string :=
  if (n <=? String.length s)%nat
  then Some (String.substring n (String.length s - n) s)
  else None.

Definition StatusBadRequest : Z := 400.
Definition StatusInternalServerError : Z := 500.

Section Server.

(** The Size method of Job, by which the cache weighs its values, and the
    text [%v] prints for a Status; both belong to the declarations of Job. *)
Variable Job_Size : Job -> Z.
Variable fmt_Status : JobStatus -> string.

(** json.Unmarshal(data, &j) for j := NewJob(): an error, or the decoded
    value of j, which is nil ([None]) for the JSON text null. *)
Variable json_Unmarshal : list Z -> Job -> result (option Job).

(** One iteration of the for/select loop of Server.dispatcher, on the
    message received; [now] is what time.Now() returns.  The result is
    [None] when the iteration dereferences a pointer that has no object. *)
Definition dispatcher (now : Z) (m : msg) (s : Server)
  : option (Server * list send) :=
  match m with
  | SubmitJobs j Result =>
      job ← store s !! j;
      let chans :=
        match Result with
        | Some ch => <[Id job := ch]> (submitchans s)
        | None => submitchans s
        end in
      let job' := set_Submitted now (set_Status StatusQueued job) in
      Some ({| queue := queue s ++ [j];
               alljobs := lru_Set (alljobs s) (Id job') j (Job_Size job');
               submitchans := chans;
               store := <[j := job']> (store s) |}, [])
  | RetrieveJobs id Resp | StatJobs id Resp =>
      let '(v, c) := lru_Get (alljobs s) id in
      Some ({| queue := queue s; alljobs := c;
               submitchans := submitchans s; store := store s |},
            [Send Resp v])
  | PushJobs j =>
      job ← store s !! j;
      let '(out, chans) :=
        match submitchans s !! Id job with
        | Some ch => ([Send ch (Some j)], delete (Id job) (submitchans s))
        | None => ([], submitchans s)
        end in
      Some ({| queue := queue s;
               alljobs := lru_Set (alljobs s) (Id job) j (Job_Size job);
               submitchans := chans;
               store := store s |}, out)
  | FetchJobs req =>
      match queue s with
      | j :: q =>
          job ← store s !! j;
          Some ({| queue := q; alljobs := alljobs s;
                   submitchans := submitchans s;
                   store := <[j := set_Status StatusRunning job]> (store s) |},
                [Send req (Some j)])
      | [] => Some (s, [Send req None])
      end
  end.

(** A Job object enters the store when a pointer to it is first handed to
    the dispatcher: NewJob in the HTTP handlers, the decoded argument of
    an RPC call. *)
Definition alloc (job : Job) (s : Server) : loc * Server :=
  let p := fresh (dom (store s)) in
  (p, {| queue := queue s; alljobs := alljobs s;
         submitchans := submitchans s; store := <[p := job]> (store s) |}).

(** *** The RPC surface *)

(** RPC.Submit makes a channel [ch], sends jobSubmit{j, ch} and blocks on
    [<-ch]; [RPC_Submit] is the part up to the blocking receive and
    [RPC_Submit_result] what the call stores in *result when the sends of
    a later iteration reach [ch]. *)
Definition RPC_Submit (j : loc) (ch : chan) (now : Z) (s : Server)
  : option (Server * list send) :=
  dispatcher now (SubmitJobs j (Some ch)) s.

Definition RPC_Submit_result (ch : chan) (out : list send)
  : option (option loc) :=
  recv ch out.

(** RPC.Fetch: [ch] is the workRequest channel the call makes. *)
Definition RPC_Fetch (wid : list Z) (ch : chan) (now : Z) (s : Server)
  : option (Server * result loc) :=
  '(s', out) ← dispatcher now (FetchJobs ch) s;
  v ← recv ch out;
  Some (s', match v with
            | Some j => Ok j
            | None => Err "no jobs available to run"
            end).

Definition RPC_Push (j : loc) (now : Z) (s : Server)
  : option (Server * list send) :=
  dispatcher now (PushJobs j) s.

(** *** The HTTP surface *)

Definition getjob (idstr : string) (ch : chan) (now : Z) (s : Server)
  : option (Server * result loc) :=
  match convid idstr with
  | None => Some (s, Err ("malformed job id " +:+ idstr))
  | Some id =>
      '(s', out) ← dispatcher now (StatJobs id ch) s;
      v ← recv ch out;
      Some (s', match v with
                | Some j => Ok j
                | None => Err ("unknown job id " +:+ idstr)
                end)
  end.

Definition retrieve (io : iofaults) (path : string) (ch : chan) (now : Z)
    (s : Server) : option (Server * response) :=
  idstr ← slice_from (String.length "/job/retrieve/") path;
  '(s', r) ← getjob idstr ch now s;
  match r with
  | Err e => Some (s', HttpError StatusBadRequest e)
  | Ok j =>
      job ← store s' !! j;
      if bool_decide (Status job ≠ StatusComplete) then
        Some (s', HttpError StatusBadRequest
                    ("job " +:+ idstr +:+ " status: "
                       +:+ fmt_Status (Status job)))
      else
        let hdr :=
          [("Content-Disposition",
            "filename=" +:+ dquote +:+ "results-id-"
              +:+ hex.EncodeToString (Id job) +:+ ".tar" +:+ dquote)] in
        match zip_all io (Outfiles job) NewWriter with
        | Err _ => Some (s', HttpAborted hdr)
        | Ok buf =>
            match zip_Close io with
            | Some e => Some (s', HttpError StatusInternalServerError e)
            | None =>
                match io_Copy io with
                | Some e => Some (s', HttpError StatusInternalServerError e)
                | None => Some (s', HttpArchive hdr buf)
                end
            end
        end
  end.

(** Server.submit: [body] is what ioutil.ReadAll(r.Body) returns and
    [newjob] the Job NewJob() makes. *)
Definition submit (body : result (list Z)) (newjob : Job) (now : Z)
    (s : Server) : option (Server * response) :=
  match body with
  | Err e => Some (s, HttpError StatusBadRequest e)
  | Ok data =>
      match json_Unmarshal data newjob with
      | Err e => Some (s, HttpError StatusBadRequest e)
      | Ok None => None (* the dispatcher dereferences the nil j *)
      | Ok (Some job) =>
          let '(j, s1) := alloc job s in
          '(s2, _) ← dispatcher now (SubmitJobs j None) s1;
          Some (s2, HttpText [("Access-Control-Allow-Origin", "*")]
                      (hex.EncodeToString (Id job)))
      end
  end.

(** *** Sequences of dispatcher iterations *)

(** The iterations of the loop on a sequence of received messages, each
    with the time of its iteration; the sends are collected in order. *)
Fixpoint run {E : Type} (step : Z -> E -> Server -> option (Server * list send))
    (es : list (Z * E)) (s : Server) : option (Server * list send) :=
  match es with
  | [] => Some (s, [])
  | (now, e) :: es' =>
      '(s1, out1) ← step now e s;
      '(s2, out2) ← run step es' s1;
      Some (s2, out1 ++ out2)
  end.

(** A call through a transport adapter, with the Job value it carries:
    Submit and Push hand the dispatcher a pointer to a Job object of
    their own (made by NewJob or decoded from the call), the others send
    their request as it is. *)
Inductive event :=
  | EvSubmit (job : Job) (Result : option chan)
  | EvRetrieve (id : list Z) (Resp : chan)
  | EvStat (id : list Z) (Resp : chan)
  | EvPush (job : Job)
  | EvFetch (req : chan).

Definition exec (now : Z) (e : event) (s : Server)
  : option (Server * list send) :=
  match e with
  | EvSubmit job Result =>
      let '(j, s1) := alloc job s in dispatcher now (SubmitJobs j Result) s1
  | EvRetrieve id Resp => dispatcher now (RetrieveJobs id Resp) s
  | EvStat id Resp => dispatcher now (StatJobs id Resp) s
  | EvPush job =>
      let '(j, s1) := alloc job s in dispatcher now (PushJobs j) s1
  | EvFetch req => dispatcher now (FetchJobs req) s
  end.

End Server.

(** The Status a Stat or Retrieve of [id] shows: the Status of the object
    the cached pointer refers to. *)
Definition observed (s : Server) (id : list Z) : option JobStatus :=
  j ← lru_peek (alljobs s) id;
  job ← store s !! j;
  Some (Status job).

(** The discipline under which the callers use an Id: submitted at most
    once, never after a Push for it, and pushed only with a final Status. *)
Inductive phase := Unseen | Enqueued | Reported.

Definition advance (id : list Z) (ph : phase) (e : event) : option phase :=
  match e with
  | EvSubmit job _ =>
      if decide (Id job = id) then
        match ph with Unseen => Some Enqueued | _ => None end
      else Some ph
  | EvPush job =>
      if decide (Id job = id) then
        if final (Status job) then Some Reported else None
      else Some ph
  | _ => Some ph
  end.

Fixpoint disciplined (id : list Z) (ph : phase) (es : list (Z * event))
  : bool :=
  match es with
  | [] => true
  | (_, e) :: es' =>
      match advance id ph e with
      | Some ph' => disciplined id ph' es'
      | None => false
      end
  end.

(** Every pointer of the queue has its object. *)
Definition queue_allocated (s : Server) : Prop :=
  forall j, In j (queue s) -> is_Some (store s !! j).

(** What the cache can hold under [id] in each phase of the discipline,
    and the rank [lv] a Stat of [id] shows if it shows any: nothing before
    the Submit; then only the submitted object, Queued or Running; after a
    Push only pushed objects, which are final and never in the queue. *)
Definition tracks (id : list Z) (ph : phase) (lv : nat) (s : Server) : Prop :=
  match ph with
  | Unseen =>
      lv = 0%nat
      /\ forall e, In e (entries (alljobs s)) -> e_key e <> id
  | Enqueued =>
      exists p job,
        store s !! p = Some job /\ rank (Status job) = lv /\ (lv <= 1)%nat
        /\ forall e, In e (entries (alljobs s)) -> e_key e = id -> e_val e = p
  | Reported =>
      lv = 2%nat
      /\ forall e, In e (entries (alljobs s)) -> e_key e = id ->
         (exists job, store s !! e_val e = Some job
                      /\ final (Status job) = true)
         /\ ~ In (e_val e) (queue s)
  end.

(** An event that neither registers a waiter under [id] nor pushes a job
    with that Id. *)
Definition quiet (id : list Z) (e : event) : bool :=
  match e with
  | EvSubmit job (Some _) | EvPush job => negb (bool_decide (Id job = id))
  | _ => true
  end.

(** The events of a sequence of Submit calls, each with its time, its Job
    and its waiter channel if it has one. *)
Definition submits (subs : list (Z * (Job * option chan)))
  : list (Z * event) :=
  map (fun sub => (sub.1, EvSubmit sub.2.1 sub.2.2)) subs.

(** *** The other handlers, and what a sequence of calls hands over *)

Section MoreHandlers.

Variable Job_Size : Job -> Z.

(** json.Marshal(jj), with the marshalled bytes read as text. *)
Variable json_Marshal : Job -> result string.

(** Server.submitInfile: [body] is what ioutil.ReadAll(r.Body) returns and
    [newjob] the Job NewJobDefault(data) makes. *)
Definition submitInfile (body : result (list Z)) (newjob : Job) (now : Z)
    (s : Server) : option (Server * response) :=
  match body with
  | Err e => Some (s, HttpError StatusBadRequest e)
  | Ok data =>
      let '(j, s1) := alloc newjob s in
      '(s2, _) ← dispatcher Job_Size now (SubmitJobs j None) s1;
      Some (s2, HttpText [("Access-Control-Allow-Origin", "*")]
                  (hex.EncodeToString (Id newjob)))
  end.

(** Server.status: the reply marshals jj := &Job{Id: j.Id, Status:
    j.Status}, whose other fields are zero; [write_err] is the error of
    w.Write(data). *)
Definition status (write_err : option string) (path : string) (ch : chan)
    (now : Z) (s : Server) : option (Server * response) :=
  idstr ← slice_from (String.length "/job/status/") path;
  '(s', r) ← getjob Job_Size idstr ch now s;
  match r with
  | Err e => Some (s', HttpError StatusBadRequest e)
  | Ok j =>
      job ← store s' !! j;
      let jj := {| Id := Id job; Status := Status job; Submitted := 0;
                   Payload := []; Outfiles := [] |} in
      match json_Marshal jj with
      | Err e => Some (s', HttpError StatusInternalServerError e)
      | Ok data =>
          match write_err with
          | Some e => Some (s', HttpError StatusInternalServerError e)
          | None => Some (s', HttpText [] data)
          end
      end
  end.

(** The pointers a sequence of calls hands to the dispatcher with its
    Submit calls, and the pointers its Fetch calls receive, both in the
    order of the calls. *)
Fixpoint handed (es : list (Z * event)) (s : Server)
  : option (Server * list loc * list loc) :=
  match es with
  | [] => Some (s, [], [])
  | (now, e) :: es' =>
      '(s1, out) ← exec Job_Size now e s;
      '(s2, subs, fets) ← handed es' s1;
      Some (s2,
            match e with
            | EvSubmit job _ => (alloc job s).1 :: subs
            | _ => subs
            end,
            match e with
            | EvFetch req =>
                match recv req out with
                | Some (Some j) => j :: fets
                | _ => fets
                end
            | _ => fets
            end)
  end.

End MoreHandlers.

(** A 16-byte Id: sixteen values in the range of a byte. *)
Definition is_Id (id : list Z) : Prop :=
  List.length id = 16%nat /\ Forall (fun b => 0 <= b < 256) id.

(** *** Values to run the definitions on *)

(** A Size that counts the bytes of the payload and of the output blobs,
    a text for each Status, and a decoder that only rejects the empty
    body. *)
Definition byte_size (j : Job) : Z :=
  Z.of_nat (List.length (Payload j))
  + foldr (fun f acc => Z.of_nat (List.length (Data f)) + acc) 0 (Outfiles j).

Definition status_text (st : JobStatus) : string :=
  match st with
  | StatusQueued => "queued"
  | StatusRunning => "running"
  | StatusComplete => "complete"
  | StatusFailed => "failed"
  end.

Definition decode_nonempty (data : list Z) (j : Job) : result (option Job) :=
  match data with
  | [] => Err "unexpected end of JSON input"
  | _ =>
      Ok (Some {| Id := Id j; Status := Status j; Submitted := Submitted j;
                  Payload := data; Outfiles := Outfiles j |})
  end.

(** A marshaller that writes the Id and the Status of a Job as text. *)
Definition marshal_text (j : Job) : result string :=
  Ok (hex.EncodeToString (Id j) +:+ " " +:+ status_text (Status j)).


Definition idA : list Z := replicate 16 1.
Definition idB : list Z := replicate 16 2.

Definition jobA : Job :=
  {| Id := idA; Status := StatusQueued; Submitted := 0;
     Payload := [120]; Outfiles := [] |}.

Definition jobB : Job :=
  {| Id := idB; Status := StatusQueued; Submitted := 0;
     Payload := [121]; Outfiles := [] |}.

Definition doneA : Job :=
  {| Id := idA; Status := StatusComplete; Submitted := 0;
     Payload := [120];
     Outfiles := [{| Name := "out.txt"; Data := [52; 50] |}] |}.

(** A server that holds the object of jobA at pointer 1 and nothing else,
    one that has it queued and cached, and one that has the finished job
    cached. *)
Definition holdingA : Server :=
  {| queue := []; alljobs := NewLRUCache (500 * MB);
     submitchans := ∅; store := {[ 1%positive := jobA ]} |}.

Definition queuedA : Server :=
  {| queue := [1%positive];
     alljobs := lru_Set (NewLRUCache (500 * MB)) idA 1%positive 1;
     submitchans := ∅; store := {[ 1%positive := jobA ]} |}.

Definition cachedDoneA : Server :=
  {| queue := [];
     alljobs := lru_Set (NewLRUCache (500 * MB)) idA 1%positive 3;
     submitchans := ∅; store := {[ 1%positive := doneA ]} |}.

End cloudlus.

(** ** Interpolation of samples (package scen) *)

Module scen.

Section Interp.

(** float64 with the comparisons and the arithmetic interpolate uses; the
    operations never panic, whatever their operands. *)
Variable F : Type.
Variables (fle flt : F -> F -> bool).
Variables (fadd fsub fmul fdiv : F -> F -> F).

Record sample := { X : F; Y : F }.

(** sampleSet.Less *)
Definition Less (a b : sample) : bool := flt (X a) (X b).

(** sort.Sort(sampleSet(ss)): the library rearranges ss in place. *)
Variable Sort : list sample -> list sample.

Definition len (ss : list sample) : Z := Z.of_nat (List.length ss).

(** ss[i] and ss[:n] with the bounds checks of Go; [None] is the panic. *)
Definition index (ss : list sample) (i : Z) : option sample :=
  if (0 <=? i) && (i <? len ss) then nth_error ss (Z.to_nat i) else None.

Definition slice_to (ss : list sample) (n : Z) : option (list sample) :=
  if (0 <=? n) && (n <=? len ss) then Some (take (Z.to_nat n) ss) else None.

(** lefty + (x-left)/(right-left)*(righty-lefty) *)
Definition line (l r : sample) (x : F) : F :=
  fadd (Y l) (fmul (fdiv (fsub x (X l)) (fsub (X r) (X l))) (fsub (Y r) (Y l))).

(** The for loop over the indices of ss[:len(ss)-1], from index [i] with
    [n] iterations left: [None] is a panic, [Some None] the end of the loop
    and [Some (Some y)] the return of y. *)
Fixpoint scan (ss : list sample) (x : F) (i : Z) (n : nat)
  : option (option F) :=
  match n with
  | O => Some None
  | S n' =>
      l ← index ss i;
      r ← index ss (i + 1);
      if fle x (X r) then Some (Some (line l r x))
      else scan ss x (i + 1) n'
  end.

Definition interpolate (samples : list sample) : F -> option F :=
  let ss := Sort samples in
  fun x =>
    pre ← slice_to ss (len ss - 1);
    res ← scan ss x 0 (List.length pre);
    match res with
    | Some y => Some y
    | None =>
        let end_ := len ss - 1 in
        l ← index ss (end_ - 1);
        r ← index ss end_;
        Some (line l r x)
    end.

End Interp.

(** An instance to run the definitions on: rationals stand in for
    float64 and insertion by Less for sort.Sort. *)
Fixpoint insert_by {A : Type} (lt : A -> A -> bool) (a : A) (l : list A)
  : list A :=
  match l with
  | [] => [a]
  | b :: l' => if lt a b then a :: l else b :: insert_by lt a l'
  end.

Definition insertion_sort {A : Type} (lt : A -> A -> bool) (l : list A)
  : list A :=
  foldr (insert_by lt) [] l.

Definition Qlt_bool (a b : Q) : bool := negb (Qle_bool b a).

Definition interpolateQ (samples : list (sample Q)) : Q -> option Q :=
  interpolate Q Qle_bool Qplus Qminus Qmult Qdiv
    (insertion_sort (Less Q Qlt_bool)) samples.

Definition pt (x y : Z) : sample Q := {| X := inject_Z x; Y := inject_Z y |}.

(** *** Go's int *)

(** int is the 64-bit two's complement integer; its arithmetic wraps
    around, its division truncates towards zero and panics ([None]) on a
    zero divisor. *)
Definition wrap (z : Z) : Z := (z + 2 ^ 63) mod 2 ^ 64 - 2 ^ 63.

Definition iadd (a b : Z) : Z := wrap (a + b).
Definition isub (a b : Z) : Z := wrap (a - b).
Definition imul (a b : Z) : Z := wrap (a * b).

Definition idiv (a b : Z) : option Z :=
  if b =? 0 then None else Some (wrap (Z.quot a b)).

(** The range in which the int arithmetic of a scenario stays clear of
    the wrap-around. *)
Definition small (z : Z) : Prop := 0 <= z < 2 ^ 30.

(** *** findLine *)

(** The loop of findLine with [n] bytes still to read: ReadByte fails,
    and findLine panics, when the buffer is exhausted. *)
Fixpoint findLine_from (data : list Z) (n : nat) (line col : Z) {struct n}
  : option (Z * Z) :=
  match n with
  | O => Some (line, col)
  | S n' =>
      match data with
      | [] => None
      | b :: rest =>
          if b =? 10 then findLine_from rest n' (iadd line 1) 1
          else findLine_from rest n' line (iadd col 1)
      end
  end.

Definition findLine (data : list Z) (pos : Z) : option (Z * Z) :=
  findLine_from data (Z.to_nat pos) 1 0.

(** The number of line feeds in a text, and the number of bytes after
    its last line feed. *)
Definition newlines (bs : list Z) : nat :=
  List.length (List.filter (fun b => b =? 10) bs).

Fixpoint after_last_newline (bs : list Z) : nat :=
  match bs with
  | [] => 0
  | b :: rest =>
      if existsb (fun c => c =? 10) rest then after_last_newline rest
      else if b =? 10 then List.length rest
      else S (List.length rest)
  end.

(** *** Facilities, builds and scenarios *)

Section Scenarios.

(** float64, with the tests Cap > 0 and Cap == 0 and the zero value. *)
Variable F : Type.
Variables (gt0 eq0 : F -> bool).
Variable f0 : F.

Record Facility := {
  Proto : string;
  Cap : F;
  Life : Z;
  BuildAfter : Z;
  FracOfProtos : list string
}.

(** Build: the fields Proto and Life of the source are BuildProto and
    BuildLife here. *)
Record Build := {
  Time : Z;
  BuildProto : string;
  N : Z;
  BuildLife : Z;
  fac : Facility
}.

Record Scenario := {
  SimDur : Z;
  BuildOffset : Z;
  TrailingDur : Z;
  CyclusTmpl : string;
  BuildPeriod : Z;
  NuclideCost : gmap string F;
  Discount : F;
  Facs : list Facility;
  MinPower : list F;
  MaxPower : list F;
  Builds : list Build;
  Addr : string;
  File : string;
  Handle : string
}.

Definition Alive (built t life : Z) : bool :=
  (built <=? t) && ((t <=? iadd built life) || (life <=? 0)).

Definition Facility_Alive (f : Facility) (built t : Z) : bool :=
  Alive built t (Life f).

Definition Available (f : Facility) (t : Z) : bool :=
  (BuildAfter f <=? t) && (0 <=? BuildAfter f).

Definition Lifetime (b : Build) : Z :=
  if 0 <? BuildLife b then BuildLife b else Life (fac b).

Definition Build_Alive (b : Build) (t : Z) : bool :=
  Alive (Time b) t (Lifetime b).

Definition reactors (s : Scenario) : list Facility :=
  List.filter (fun fac => gt0 (Cap fac)) (Facs s).

Definition notreactors (s : Scenario) : list Facility :=
  List.filter (fun fac => eq0 (Cap fac)) (Facs s).

Definition ilen {A : Type} (l : list A) : Z := Z.of_nat (List.length l).

Definition nvarsPerPeriod (s : Scenario) : Z :=
  iadd (isub (ilen (Facs s)) 1) 1.

Definition nperiods (s : Scenario) : option Z :=
  q ← idiv (isub (isub (isub (SimDur s) (BuildOffset s)) (TrailingDur s)) 2)
         (BuildPeriod s);
  Some (iadd q 1).

Definition nvars (s : Scenario) : option Z :=
  np ← nperiods s; Some (imul (nvarsPerPeriod s) np).

(** periodFacOrder: reactors()[1:] and reactors()[0] panic when there is
    no reactor. *)
Definition periodFacOrder (s : Scenario)
  : option (list Facility * Facility) :=
  match reactors s with
  | [] => None
  | r0 :: rs => Some (rs ++ notreactors s, r0)
  end.

Definition timeOf (s : Scenario) (period : Z) : Z :=
  iadd (iadd (imul period (BuildPeriod s)) 1) (BuildOffset s).

Definition periodOf (s : Scenario) (time : Z) : option Z :=
  idiv (isub (isub time (BuildOffset s)) 1) (BuildPeriod s).

(** periodTimes: make([]int, n) panics on a negative n. *)
Definition periodTimes (s : Scenario) : option (list Z) :=
  np ← nperiods s;
  if np <? 0 then None
  else Some (map (fun i => timeOf s (Z.of_nat i)) (seq 0 (Z.to_nat np))).

(** naliveproto: a prototype without builds reads as the nil slice. *)
Definition naliveproto (facs : gmap string (list Build)) (t : Z)
    (protos : list string) : Z :=
  foldl (fun count proto =>
           foldl (fun c b => if Build_Alive b t then iadd c 1 else c)
             count (default [] (facs !! proto)))
    0 protos.

(** The loop of Validate over s.Builds; the assignment p.fac = fac changes
    the loop variable only. *)
Fixpoint Validate_builds (protos : gmap string Facility) (builds : list Build)
  : option string :=
  match builds with
  | [] => None
  | p :: rest =>
      match protos !! BuildProto p with
      | None =>
          Some ("param prototype '" +:+ BuildProto p
                  +:+ "' is not defined in Facs")
      | Some _ => Validate_builds protos rest
      end
  end.

(** Validate: [Some None] is the nil error, [None] a panic. *)
Definition Validate (s : Scenario) : option (option string) :=
  let min := ilen (MinPower s) in
  let max := ilen (MaxPower s) in
  if bool_decide (min <> max) then
    Some (Some ("MaxPower length " +:+ pretty max
                  +:+ " != MinPower length " +:+ pretty min))
  else
    np ← nperiods s;
    let lmin := ilen (MinPower s) in
    if bool_decide (np <> lmin) then
      Some (Some ("number power constraints " +:+ pretty lmin
                    +:+ " != number build periods " +:+ pretty np))
    else
      let protos :=
        foldl (fun m fac => <[Proto fac := fac]> m) ∅ (Facs s) in
      Some (Validate_builds protos (Builds s)).

Definition zero_Facility : Facility :=
  {| Proto := ""; Cap := f0; Life := 0; BuildAfter := 0; FracOfProtos := [] |}.

Definition zero_Build : Build :=
  {| Time := 0; BuildProto := ""; N := 0; BuildLife := 0;
     fac := zero_Facility |}.

Definition zero_Scenario : Scenario :=
  {| SimDur := 0; BuildOffset := 0; TrailingDur := 0; CyclusTmpl := "";
     BuildPeriod := 0; NuclideCost := ∅; Discount := f0; Facs := [];
     MinPower := []; MaxPower := []; Builds := []; Addr := ""; File := "";
     Handle := "" |}.

Definition set_File (fname : string) (s : Scenario) : Scenario :=
  {| SimDur := SimDur s; BuildOffset := BuildOffset s;
     TrailingDur := TrailingDur s; CyclusTmpl := CyclusTmpl s;
     BuildPeriod := BuildPeriod s; NuclideCost := NuclideCost s;
     Discount := Discount s; Facs := Facs s; MinPower := MinPower s;
     MaxPower := MaxPower s; Builds := Builds s; Addr := Addr s;
     File := fname; Handle := Handle s |}.

Definition set_Builds (bs : list Build) (s : Scenario) : Scenario :=
  {| SimDur := SimDur s; BuildOffset := BuildOffset s;
     TrailingDur := TrailingDur s; CyclusTmpl := CyclusTmpl s;
     BuildPeriod := BuildPeriod s; NuclideCost := NuclideCost s;
     Discount := Discount s; Facs := Facs s; MinPower := MinPower s;
     MaxPower := MaxPower s; Builds := bs; Addr := Addr s;
     File := File s; Handle := Handle s |}.

(** What json.Unmarshal reports: a *json.SyntaxError with its Offset, or
    another error; [msg] is the text of err.Error(). *)
Inductive json_error :=
  | SyntaxError (Offset : Z) (msg : string)
  | OtherError (msg : string).

(** json.Unmarshal(data, s): the scenario as the decoder leaves it, and
    its error if any. *)
Variable json_Unmarshal : list Z -> Scenario -> Scenario * option json_error.

(** Load: [readfile] is what ioutil.ReadFile(fname) returns and [s] the
    receiver, [None] for nil.  The result is the scenario Load worked on
    and its error. *)
Definition Load (readfile : cloudlus.result (list Z)) (fname : string)
    (s : option Scenario) : option (Scenario * option string) :=
  let s0 := default zero_Scenario s in
  match readfile with
  | cloudlus.Err e => Some (s0, Some e)
  | cloudlus.Ok data =>
      let '(s1, err) := json_Unmarshal data s0 in
      match err with
      | Some (SyntaxError off msg) =>
          '(line, col) ← findLine data off;
          Some (s1, Some (fname +:+ ":" +:+ pretty line +:+ ":"
                            +:+ pretty col +:+ ": " +:+ msg))
      | Some (OtherError msg) => Some (s1, Some msg)
      | None =>
          let s2 := set_File fname s1 in
          s3 ← (if bool_decide (ilen (Builds s2) = 0) then
                   n ← nvars s2;
                   if n <? 0 then None
                   else Some (set_Builds (replicate (Z.to_nat n) zero_Build)
                                s2)
                 else Some s2);
          v ← Validate s3;
          Some (s3, v)
      end
  end.

(** VarNames: names[i] = fmt.Sprintf("f%v_t%v", f, t) at i := f*nperiods +
    n; an index outside names panics. *)
Definition set_name (names : list string) (i : Z) (v : string)
  : option (list string) :=
  if (0 <=? i) && (i <? ilen names) then Some (<[Z.to_nat i := v]> names)
  else None.

(** fmt.Sprintf("f%v_t%v", f, t) *)
Definition var_name (f t : Z) : string :=
  "f" +:+ pretty f +:+ "_t" +:+ pretty t.

Definition VarNames_inner (np f : Z) (times : list Z) (names : list string)
  : option (list string) :=
  foldl (fun acc nt =>
           names ← acc;
           set_name names (iadd (imul f np) (Z.of_nat nt.1))
             (var_name f nt.2))
    (Some names) (imap pair times).

Definition VarNames (s : Scenario) : option (list string) :=
  np ← nperiods s;
  n ← nvars s;
  if n <? 0 then None
  else
    foldl (fun acc f =>
             names ← acc;
             times ← periodTimes s;
             VarNames_inner np (Z.of_nat f) times names)
      (Some (replicate (Z.to_nat n) ""))
      (seq 0 (List.length (Facs s))).

End Scenarios.

Arguments Proto {F}.
Arguments Cap {F}.
Arguments Life {F}.
Arguments BuildAfter {F}.
Arguments FracOfProtos {F}.
Arguments Time {F}.
Arguments BuildProto {F}.
Arguments N {F}.
Arguments BuildLife {F}.
Arguments fac {F}.
Arguments SimDur {F}.
Arguments BuildOffset {F}.
Arguments TrailingDur {F}.
Arguments CyclusTmpl {F}.
Arguments BuildPeriod {F}.
Arguments NuclideCost {F}.
Arguments Discount {F}.
Arguments Facs {F}.
Arguments MinPower {F}.
Arguments MaxPower {F}.
Arguments Builds {F}.
Arguments Addr {F}.
Arguments File {F}.
Arguments Handle {F}.
Arguments Facility_Alive {F}.
Arguments Available {F}.
Arguments Lifetime {F}.
Arguments Build_Alive {F}.
Arguments nvarsPerPeriod {F}.
Arguments nperiods {F}.
Arguments nvars {F}.
Arguments timeOf {F}.
Arguments periodOf {F}.
Arguments periodTimes {F}.
Arguments naliveproto {F}.
Arguments Validate_builds {F}.
Arguments Validate {F}.
Arguments set_File {F}.
Arguments set_Builds {F}.
Arguments VarNames {F}.
Arguments var_name : simpl never.
Arguments reactors {F}.
Arguments notreactors {F}.
Arguments periodFacOrder {F}.
Arguments zero_Facility {F}.
Arguments zero_Build {F}.
Arguments zero_Scenario {F}.
Arguments Load {F}.

(** *** Samples from disruptions, integration and sampling *)

Section Sampling.

Variable F : Type.
Variables (fadd fsub fmul fdiv : F -> F -> F).
Variable fge : F -> F -> bool.

(** float64(n) of an int n, and the constants 0.0 and 0.5. *)
Variable of_int : Z -> F.
Variables (f0 fhalf : F).

(** Disruption, of which zip and extractProbs read Time and Prob. *)
Variable Disruption : Type.
Variable Disruption_Time : Disruption -> Z.
Variable Disruption_Prob : Disruption -> F.

(** zip: the slice is made with len(disrups) zero samples and the pairs
    are appended to it. *)
Definition zip (disrups : list Disruption) (objs : list F)
  : option (list (sample F)) :=
  if bool_decide (List.length disrups <> List.length objs) then None
  else
    foldl (fun acc id =>
             samples ← acc;
             o ← objs !! id.1;
             Some (samples
                     ++ [{| X := of_int (Disruption_Time id.2); Y := o |}]))
      (Some (replicate (List.length disrups) {| X := f0; Y := f0 |}))
      (imap pair disrups).

(** The sample zip appends for a disruption and its objective. *)
Definition pair_of (d : Disruption) (o : F) : sample F :=
  {| X := of_int (Disruption_Time d); Y := o |}.

Definition extractProbs (disrups : list Disruption) : list (sample F) :=
  foldl (fun samples d =>
           samples ++ [{| X := of_int (Disruption_Time d);
                          Y := Disruption_Prob d |}])
    [] disrups.

(** A smoothFn may panic: [None]. *)
Definition productOf (fn1 fn2 : F -> option F) : F -> option F :=
  fun x => y1 ← fn1 x; y2 ← fn2 x; Some (fmul y1 y2).

(** The loop of integrateMid from index [i] with [n] iterations left. *)
Fixpoint integrate_from (fn : F -> option F) (x1 dx : F) (i : Z) (n : nat)
    (tot : F) : option F :=
  match n with
  | O => Some tot
  | S n' =>
      let x := fadd x1 (fmul (fadd (of_int i) fhalf) dx) in
      y ← fn x;
      integrate_from fn x1 dx (iadd i 1) n' (fadd tot (fmul y dx))
  end.

Definition integrateMid (fn : F -> option F) (x1 x2 : F) (ninterval : Z)
  : option F :=
  let dx := fdiv (fsub x2 x1) (of_int ninterval) in
  integrate_from fn x1 dx 0 (Z.to_nat ninterval) f0.

(** The loop of sampleUniformProb. *)
Fixpoint sample_from (fn : F -> option F) (x1 dx sampleA : F) (i : Z)
    (n : nat) (tot : F) (xs : list F) : option (list F) :=
  match n with
  | O => Some xs
  | S n' =>
      let x := fadd x1 (fmul (fadd (of_int i) fhalf) dx) in
      y ← fn x;
      let tot' := fadd tot (fmul y dx) in
      let xs' :=
        if fge tot' (fmul (of_int (iadd (ilen xs) 1)) sampleA)
        then xs ++ [x] else xs in
      sample_from fn x1 dx sampleA (iadd i 1) n' tot' xs'
  end.

Definition sampleUniformProb (fn : F -> option F) (x1 x2 : F)
    (nsample ninterval : Z) : option (list F) :=
  totA ← integrateMid fn x1 x2 (imul ninterval nsample);
  let sampleA := fdiv totA (of_int nsample) in
  let dx := fdiv (fsub x2 x1) (of_int (imul ninterval nsample)) in
  sample_from fn x1 dx sampleA 0 (Z.to_nat (imul ninterval nsample)) f0 [].

(** The midpoints of the intervals the two loops evaluate fn at. *)
Definition midpoints (x1 dx : F) (i : Z) (n : nat) : list F :=
  map (fun k => fadd x1 (fmul (fadd (of_int (i + Z.of_nat k)) fhalf) dx))
    (seq 0 n).

End Sampling.

Arguments pair_of {F} of_int {Disruption} Disruption_Time d o.

(** *** TransformVars *)

Section Transform.

Variable F : Type.
Variables (gt0 eq0 : F -> bool).
Variables (fadd fsub fmul fdiv fmax : F -> F -> F).

(** math.Floor, float64(n) of an int n, int(x) of a float x, and the
    constants 0, 1 and 0.5. *)
Variable ffloor : F -> F.
Variable of_int : Z -> F.
Variable to_int : F -> Z.
Variables (f0 f1 fhalf : F).

(** The values of the maps caperror and builds in the order in which a
    range statement visits them; Go leaves that order open. *)
Variable range_caperror : gmap string F -> list F.
Variable range_builds : gmap string (list (Build F)) -> list (list (Build F)).

(** l[i] with the bounds check of Go. *)
Definition at_ {A : Type} (l : list A) (i : Z) : option A :=
  if (0 <=? i) && (i <? ilen l) then l !! Z.to_nat i else None.

(** builds[b.Proto] = append(builds[b.Proto], b) *)
Definition append_build (builds : gmap string (list (Build F))) (b : Build F)
  : gmap string (list (Build F)) :=
  <[BuildProto b := default [] (builds !! BuildProto b) ++ [b]]> builds.

Definition powercap (builds : gmap string (list (Build F))) (t : Z) : F :=
  foldl (fun pow buildsproto =>
           foldl (fun pow b =>
                    if Build_Alive b t
                    then fadd pow (fmul (Cap (fac b)) (of_int (N b)))
                    else pow)
             pow buildsproto)
    f0 (range_builds builds).

(** The two maps a build period updates. *)
Record schedule := {
  sched_builds : gmap string (list (Build F));
  sched_caperror : gmap string F
}.

(** caperror[p], 0 for a prototype without an entry. *)
Definition caperr_of (st : schedule) (p : string) : F :=
  default f0 (sched_caperror st !! p).

(** Build{Time: t, Proto: fac.Proto, N: nbuild, fac: fac} *)
Definition build_at (t : Z) (fa : Facility F) (nbuild : Z) : Build F :=
  {| Time := t; BuildProto := Proto fa; N := nbuild; BuildLife := 0;
     fac := fa |}.

(** The build of a reactor type that is to take the fraction [facfrac] of
    the capacity to build. *)
Definition reactor_build (t : Z) (captobuild facfrac : F) (fa : Facility F)
    (st : schedule) : schedule :=
  let caperr := caperr_of st (Proto fa) in
  let wantcap := fadd (fmul facfrac captobuild) caperr in
  let nbuild :=
    to_int (fmax f0 (ffloor (fadd (fdiv wantcap (Cap fa)) fhalf))) in
  {| sched_builds := append_build (sched_builds st) (build_at t fa nbuild);
     sched_caperror :=
       <[Proto fa := fsub wantcap (fmul (of_int nbuild) (Cap fa))]>
         (sched_caperror st) |}.

(** The loop over the reactor variables, from [j] with [n] iterations left
    before j reaches nvarsPerPeriod; it ends early at the first facility
    that is no reactor.  The result is j, reactorfrac and the maps. *)
Fixpoint reactor_loop (s : Scenario F) (vars : list F)
    (varfacs : list (Facility F)) (i t : Z) (captobuild : F) (n : nat)
    (j : Z) (reactorfrac : F) (st : schedule)
  : option (Z * F * schedule) :=
  match n with
  | O => Some (j, reactorfrac, st)
  | S n' =>
      val ← at_ vars (iadd (imul (BuildPeriod s) i) j);
      fa ← at_ varfacs j;
      if gt0 (Cap fa) then
        let facfrac := fmul (fsub f1 reactorfrac) val in
        reactor_loop s vars varfacs i t captobuild n' (iadd j 1)
          (fadd reactorfrac facfrac)
          (reactor_build t captobuild facfrac fa st)
      else Some (j, reactorfrac, st)
  end.

(** The loop over the other facilities, from [j] with [n] iterations
    left. *)
Fixpoint other_loop (s : Scenario F) (vars : list F)
    (varfacs : list (Facility F)) (i t : Z) (n : nat) (j : Z)
    (st : schedule) : option schedule :=
  match n with
  | O => Some st
  | S n' =>
      facfrac ← at_ vars (iadd (imul (BuildPeriod s) i) j);
      fa ← at_ varfacs j;
      let caperr := caperr_of st (Proto fa) in
      let haven := of_int (naliveproto (sched_builds st) t [Proto fa]) in
      let needn :=
        fadd (fmul facfrac
                (of_int (naliveproto (sched_builds st) t (FracOfProtos fa))))
          caperr in
      let wantn := fmax f0 (fsub needn haven) in
      let nbuild := to_int (fmax f0 (ffloor (fadd wantn fhalf))) in
      other_loop s vars varfacs i t n' (iadd j 1)
        {| sched_builds :=
             append_build (sched_builds st) (build_at t fa nbuild);
           sched_caperror :=
             <[Proto fa := fsub wantn (of_int nbuild)]> (sched_caperror st) |}
  end.

(** The body of the loop over the build periods, for period [i] at time
    [t]; the second component collects what fmt.Println prints. *)
Definition period_builds (s : Scenario F) (vars : list F)
    (varfacs : list (Facility F)) (implicitreactor : Facility F)
    (i t : Z) (st : schedule) (printed : list F)
  : option (schedule * list F) :=
  minpow ← at_ (MinPower s) i;
  maxpow ← at_ (MaxPower s) i;
  let currpower := powercap (sched_builds st) t in
  powervar ← at_ vars (imul i (nvarsPerPeriod s));
  let toterr := foldl fadd f0 (range_caperror (sched_caperror st)) in
  let shouldhavepower := fadd currpower toterr in
  let captobuild0 := fmax (fsub minpow shouldhavepower) f0 in
  let powerrange := fsub maxpow (fadd shouldhavepower captobuild0) in
  let captobuild := fadd captobuild0 (fmul powervar powerrange) in
  '(j, reactorfrac, st1) ←
    reactor_loop s vars varfacs i t captobuild
      (Z.to_nat (nvarsPerPeriod s - 1)) 1 f0 st;
  let st2 :=
    reactor_build t captobuild (fsub f1 reactorfrac) implicitreactor st1 in
  st3 ← other_loop s vars varfacs i t (Z.to_nat (nvarsPerPeriod s - j)) j st2;
  Some (st3, printed ++ [shouldhavepower]).

(** TransformVars: [None] is a panic, an error is [Err], and a normal
    return carries the builds and what was printed. *)
Definition TransformVars (s : Scenario F) (vars : list F)
  : option (cloudlus.result (gmap string (list (Build F)) * list F)) :=
  err ← Validate s;
  match err with
  | Some e => Some (cloudlus.Err e)
  | None =>
      n ← nvars s;
      if bool_decide (ilen vars <> n) then
        Some (cloudlus.Err ("wrong number of vars: want " +:+ pretty n
                              +:+ ", got " +:+ pretty (ilen vars)))
      else
        let builds := foldl append_build ∅ (Builds s) in
        '(varfacs, implicitreactor) ← periodFacOrder gt0 eq0 s;
        ts ← periodTimes s;
        '(st, printed) ←
          foldl (fun acc it =>
                   '(st, printed) ← acc;
                   period_builds s vars varfacs implicitreactor
                     (Z.of_nat it.1) it.2 st printed)
            (Some ({| sched_builds := builds; sched_caperror := ∅ |}, []))
            (imap pair ts);
        Some (cloudlus.Ok (sched_builds st, printed))
  end.

End Transform.

(** *** Values to run the scenario definitions on *)

(** Rationals for float64 again, with the tests of a Cap against 0. *)
Definition Qgt0 (c : Q) : bool := Qlt_bool (inject_Z 0) c.
Definition Qeq0 (c : Q) : bool := Qeq_bool c (inject_Z 0).
Definition Qge_bool (a b : Q) : bool := Qle_bool b a.

Definition lwr : Facility Q :=
  {| Proto := "lwr"; Cap := inject_Z 1000; Life := 720; BuildAfter := 0;
     FracOfProtos := [] |}.

Definition repo : Facility Q :=
  {| Proto := "repo"; Cap := inject_Z 0; Life := 0; BuildAfter := 0;
     FracOfProtos := ["lwr"] |}.

(** Twenty years in months, builds every year from month 2 on, the last
    two years left for wind-down: 18 build periods. *)
Definition demo : Scenario Q :=
  {| SimDur := 240; BuildOffset := 1; TrailingDur := 24; CyclusTmpl := "";
     BuildPeriod := 12; NuclideCost := ∅; Discount := inject_Z 0;
     Facs := [lwr; repo];
     MinPower := replicate 18 (inject_Z 0);
     MaxPower := replicate 18 (inject_Z 5000);
     Builds := []; Addr := ""; File := ""; Handle := "" |}.

Definition old_lwr : Build Q :=
  {| Time := 5; BuildProto := "lwr"; N := 2; BuildLife := 0; fac := lwr |}.

(** A decoder that yields [demo] whatever the file holds. *)
Definition decode_demo (data : list Z) (s : Scenario Q)
  : Scenario Q * option json_error :=
  (demo, None).

(** A simulation too short for its offset: one time step after the
    offset is left, the build period is a year. *)
Definition late : Scenario Q :=
  {| SimDur := 10; BuildOffset := 9; TrailingDur := 0; CyclusTmpl := "";
     BuildPeriod := 12; NuclideCost := ∅; Discount := inject_Z 0;
     Facs := [lwr]; MinPower := [inject_Z 0]; MaxPower := [inject_Z 1000];
     Builds := []; Addr := ""; File := ""; Handle := "" |}.

Definition Qmax_bool (a b : Q) : Q := if Qle_bool a b then b else a.

(** TransformVars on rationals, the maps visited in the order of their
    keys. *)
Definition TransformVarsQ (s : Scenario Q) (vars : list Q)
  : option (cloudlus.result (gmap string (list (Build Q)) * list Q)) :=
  TransformVars Q Qgt0 Qeq0 Qplus Qminus Qmult Qdiv Qmax_bool
    (fun x => inject_Z (Qfloor x)) inject_Z Qfloor
    (inject_Z 0) (inject_Z 1) (1 # 2)
    (fun m => (map_to_list m).*2) (fun m => (map_to_list m).*2) s vars.

(** A disruption as the pair of its Time and its Prob. *)
Definition zipQ (disrups : list (Z * Q)) (objs : list Q)
  : option (list (sample Q)) :=
  zip Q inject_Z (inject_Z 0) (Z * Q) fst disrups objs.

Definition integrateMidQ (fn : Q -> option Q) (x1 x2 : Q) (ninterval : Z)
  : option Q :=
  integrateMid Q Qplus Qminus Qmult Qdiv inject_Z (inject_Z 0) (1 # 2)
    fn x1 x2 ninterval.

Definition sampleUniformProbQ (fn : Q -> option Q) (x1 x2 : Q)
    (nsample ninterval : Z) : option (list Q) :=
  sampleUniformProb Q Qplus Qminus Qmult Qdiv Qge_bool inject_Z (inject_Z 0)
    (1 # 2) fn x1 x2 nsample ninterval.

End scen.

(** ** Properties of convid and of hexadecimal decoding *)

Section HexFacts.

Import hex cloudlus.

Lemma length_list_ascii (s : string) :
  List.length (list_ascii_of_string s) = String.length s.
Proof. induction s as [|c s IH]; simpl; congruence. Qed.

(** Decode succeeds exactly on the sources of even length made of hex
    digits, and yields one byte per two characters. *)
Lemma Decode_pairs (l : list ascii) :
  (forallb is_hex_digit l = true -> Nat.even (List.length l) = true ->
   exists uid, Decode l = Some uid /\ List.length uid = Nat.div2 (List.length l))
  /\ (forall a, forallb is_hex_digit (a :: l) = true ->
      Nat.even (List.length (a :: l)) = true ->
      exists uid, Decode (a :: l) = Some uid
                  /\ List.length uid = Nat.div2 (List.length (a :: l))).
Proof.
  induction l as [|b l [IH1 IH2]].
  - split; [intros _ _; exists []; split; reflexivity|].
    intros a _ Hev. discriminate Hev.
  - split; [apply IH2|].
    intros a Hh Hev.
    cbn [forallb] in Hh. apply andb_prop in Hh as [Ha Hh].
    apply andb_prop in Hh as [Hb Hl].
    cbn [List.length Nat.even] in Hev.
    destruct (IH1 Hl Hev) as (uid & Hd & Hlen).
    unfold is_hex_digit in Ha, Hb.
    cbn [Decode].
    destruct (fromHexChar a) as [va|]; [|discriminate].
    destruct (fromHexChar b) as [vb|]; [|discriminate].
    rewrite Hd. eexists; split; [reflexivity|].
    cbn [List.length Nat.div2]. now rewrite Hlen.
Qed.

Lemma Decode_sound (l : list ascii) :
  (forall uid, Decode l = Some uid ->
     forallb is_hex_digit l = true /\ Nat.even (List.length l) = true)
  /\ (forall a uid, Decode (a :: l) = Some uid ->
     forallb is_hex_digit (a :: l) = true
     /\ Nat.even (List.length (a :: l)) = true).
Proof.
  induction l as [|b l [IH1 IH2]].
  - split; [intros; split; reflexivity|]. intros a uid H. discriminate H.
  - split; [apply IH2|].
    intros a uid H. cbn [Decode] in H.
    destruct (fromHexChar a) as [va|] eqn:Ea; [|discriminate].
    destruct (fromHexChar b) as [vb|] eqn:Eb; [|discriminate].
    destruct (Decode l) as [bs|] eqn:Ed; [|discriminate].
    destruct (IH1 bs eq_refl) as [Hl Hev].
    cbn [forallb List.length Nat.even]. rewrite Hl. unfold is_hex_digit.
    rewrite Ea, Eb. split; [reflexivity|exact Hev].
Qed.

Lemma DecodeString_None (s : string) :
  DecodeString s = None <->
  ~ (all_hex s = true /\ Nat.even (String.length s) = true).
Proof.
  unfold DecodeString, all_hex. rewrite <- length_list_ascii.
  split.
  - intros HN [Hh Hev].
    destruct (proj1 (Decode_pairs _) Hh Hev) as (uid & Hd & _). congruence.
  - intros Hn. destruct (Decode (list_ascii_of_string s)) as [uid|] eqn:Ed;
      [|reflexivity].
    exfalso. apply Hn. exact (proj1 (Decode_sound _) uid Ed).
Qed.

Lemma copy16_length (uid : list Z) : List.length (copy16 uid) = 16%nat.
Proof.
  unfold copy16. rewrite length_app, length_take, length_replicate. lia.
Qed.

Lemma recv_own (ch : chan) (v : option loc) : recv ch [Send ch v] = Some v.
Proof. simpl. destruct (decide (ch = ch)); congruence. Qed.

End HexFacts.

(** ** Properties of the dispatcher and of its adapters *)

Section DispatcherProperties.

Import hex cloudlus.

Variable Job_Size : Job -> Z.

(** *** The cache *)

Lemma evict_incl (cap : Z) (es : list entry) (e : entry) :
  In e (evict cap es) -> In e es.
Proof.
  induction es as [|a es IH]; [trivial|].
  cbn [evict]. destruct (cap <? total (a :: es)); [|trivial].
  intros H. right. exact (IH H).
Qed.

Lemma evict_keeps_last (cap : Z) (es : list entry) (e : entry) :
  e_size e <= cap ->
  exists pre, evict cap (es ++ [e]) = pre ++ [e] /\ (forall x, In x pre -> In x es).
Proof.
  intros Hsz. induction es as [|a es (pre & Heq & Hin)].
  - exists []. split; [|intros x []].
    cbn [app evict total foldr].
    destruct (cap <? e_size e + 0) eqn:E; [|reflexivity].
    apply Z.ltb_lt in E. lia.
  - cbn [app evict]. destruct (cap <? total (a :: es ++ [e])).
    + exists pre. split; [exact Heq|]. intros x Hx. right. exact (Hin x Hx).
    + exists (a :: es). split; [reflexivity|trivial].
Qed.

Lemma without_In (k : list Z) (es : list entry) (e : entry) :
  In e (without k es) <-> In e es /\ e_key e <> k.
Proof.
  unfold without. rewrite filter_In. unfold has_key.
  destruct (bool_decide_reflect (e_key e = k)); cbn; intuition congruence.
Qed.

Lemma find_none_app (k : list Z) (pre : list entry) (e : entry) :
  (forall x, In x pre -> e_key x <> k) -> e_key e = k ->
  List.find (has_key k) (pre ++ [e]) = Some e.
Proof.
  intros Hpre Hk. induction pre as [|a pre IH]; cbn.
  - unfold has_key. now rewrite bool_decide_eq_true_2.
  - unfold has_key at 1. rewrite bool_decide_eq_false_2.
    + apply IH. intros x Hx. apply Hpre. now right.
    + apply Hpre. now left.
Qed.

Lemma lru_Set_In (c : LRUCache) (k : list Z) (v : loc) (sz : Z) (e : entry) :
  In e (entries (lru_Set c k v sz)) ->
  e = Entry k v sz \/ (In e (entries c) /\ e_key e <> k).
Proof.
  cbn. intros H. apply evict_incl, in_app_or in H as [H|[H|[]]].
  - right. now apply without_In.
  - left. now symmetry.
Qed.

Lemma lru_Get_In (c : LRUCache) (k : list Z) (e : entry) :
  In e (entries (snd (lru_Get c k))) -> In e (entries c).
Proof.
  unfold lru_Get. destruct (List.find (has_key k) (entries c)) as [e0|] eqn:E;
    cbn; [|trivial].
  intros H. apply in_app_or in H as [H|[H|[]]].
  - now apply without_In in H.
  - subst e0. now apply find_some in E.
Qed.

Lemma lru_peek_In (c : LRUCache) (k : list Z) (v : loc) :
  lru_peek c k = Some v ->
  exists e, In e (entries c) /\ e_key e = k /\ e_val e = v.
Proof.
  unfold lru_peek, lru_Get.
  destruct (List.find (has_key k) (entries c)) as [e0|] eqn:E; cbn;
    [|discriminate].
  intros [= <-]. apply find_some in E as [Hin Hk].
  exists e0. split; [exact Hin|]. split; [|reflexivity].
  unfold has_key in Hk. now apply bool_decide_eq_true_1 in Hk.
Qed.

Lemma lru_peek_None (c : LRUCache) (k : list Z) :
  (forall e, In e (entries c) -> e_key e <> k) -> lru_peek c k = None.
Proof.
  intros H. unfold lru_peek, lru_Get.
  destruct (List.find (has_key k) (entries c)) as [e0|] eqn:E; [|reflexivity].
  apply find_some in E as [Hin Hk]. unfold has_key in Hk.
  apply bool_decide_eq_true_1 in Hk. now apply H in Hin.
Qed.

(** A value that fits the capacity is found under its key after Set. *)
Lemma lru_peek_Set (c : LRUCache) (k : list Z) (v : loc) (sz : Z) :
  sz <= capacity c -> lru_peek (lru_Set c k v sz) k = Some v.
Proof.
  intros Hsz. unfold lru_peek, lru_Get, lru_Set. cbn [entries capacity].
  destruct (evict_keeps_last (capacity c) (without k (entries c))
              (Entry k v sz) Hsz) as (pre & -> & Hpre).
  rewrite find_none_app; [reflexivity| |reflexivity].
  intros x Hx. apply Hpre in Hx. now apply without_In in Hx.
Qed.

(** *** The single iterations *)

Lemma fresh_lookup (m : gmap loc Job) : m !! fresh (dom m) = None.
Proof. apply not_elem_of_dom, is_fresh. Qed.

Lemma fresh_store (s : Server) : store s !! fresh (dom (store s)) = None.
Proof. apply fresh_lookup. Qed.

Lemma dispatcher_Submit (now : Z) (j : loc) (Result : option chan)
    (s : Server) (job : Job) :
  store s !! j = Some job ->
  dispatcher Job_Size now (SubmitJobs j Result) s =
    Some ({| queue := queue s ++ [j];
             alljobs := lru_Set (alljobs s) (Id job) j
                          (Job_Size (submitted now job));
             submitchans :=
               match Result with
               | Some ch => <[Id job := ch]> (submitchans s)
               | None => submitchans s
               end;
             store := <[j := submitted now job]> (store s) |}, []).
Proof. intros H. unfold dispatcher. rewrite H. reflexivity. Qed.

Lemma dispatcher_Push (now : Z) (j : loc) (s : Server) (job : Job) :
  store s !! j = Some job ->
  dispatcher Job_Size now (PushJobs j) s =
    Some ({| queue := queue s;
             alljobs := lru_Set (alljobs s) (Id job) j (Job_Size job);
             submitchans :=
               match submitchans s !! Id job with
               | Some _ => delete (Id job) (submitchans s)
               | None => submitchans s
               end;
             store := store s |},
          match submitchans s !! Id job with
          | Some ch => [Send ch (Some j)]
          | None => []
          end).
Proof.
  intros H. unfold dispatcher. rewrite H. cbn.
  destruct (submitchans s !! Id job); reflexivity.
Qed.

Lemma RPC_Fetch_eq (wid : list Z) (ch : chan) (now : Z) (s : Server) :
  RPC_Fetch Job_Size wid ch now s =
    match queue s with
    | j :: q =>
        job ← store s !! j;
        Some ({| queue := q; alljobs := alljobs s;
                 submitchans := submitchans s;
                 store := <[j := set_Status StatusRunning job]> (store s) |},
              Ok j)
    | [] => Some (s, Err "no jobs available to run")
    end.
Proof.
  unfold RPC_Fetch, dispatcher. destruct (queue s) as [|j q].
  - cbn. destruct (decide (ch = ch)); [reflexivity|congruence].
  - destruct (store s !! j) as [job|]; [|reflexivity].
    cbn. destruct (decide (ch = ch)); [reflexivity|congruence].
Qed.

Lemma getjob_decoded (idstr : string) (ch : chan) (now : Z) (s : Server)
    (id : list Z) :
  convid idstr = Some id ->
  getjob Job_Size idstr ch now s =
    Some ({| queue := queue s; alljobs := snd (lru_Get (alljobs s) id);
             submitchans := submitchans s; store := store s |},
          match lru_peek (alljobs s) id with
          | Some j => Ok j
          | None => Err ("unknown job id " +:+ idstr)
          end).
Proof.
  intros H. unfold getjob, dispatcher, lru_peek. rewrite H.
  destruct (lru_Get (alljobs s) id) as [v c]. cbn.
  destruct (decide (ch = ch)); [reflexivity|congruence].
Qed.

(** *** The claims about single operations *)

(** C9: every id string of even length made of hex digits is accepted by
    convid whatever its length: the decoded bytes are copied left-aligned
    into a zeroed 16-byte id, cut after 16 bytes; getjob then looks that id
    up and answers with the cached job or with "unknown job id", and it
    answers "malformed job id" exactly when hex decoding fails. *)
Theorem convid_accepts_even_hex_of_any_length :
  (forall idstr, all_hex idstr = true ->
     Nat.even (String.length idstr) = true ->
     exists uid,
       DecodeString idstr = Some uid
       /\ List.length uid = Nat.div2 (String.length idstr)
       /\ convid idstr
          = Some (take 16 uid ++ replicate (16 - List.length uid)%nat 0)
       /\ List.length (take 16 uid ++ replicate (16 - List.length uid)%nat 0)
          = 16%nat
       /\ forall ch now s, exists s',
            getjob Job_Size idstr ch now s
            = Some (s', match lru_peek (alljobs s) (copy16 uid) with
                        | Some j => Ok j
                        | None => Err ("unknown job id " +:+ idstr)
                        end))
  /\ (forall idstr ch now s,
        (exists s', getjob Job_Size idstr ch now s
                    = Some (s', Err ("malformed job id " +:+ idstr)))
        <-> DecodeString idstr = None).
Proof.
  split.
  - intros idstr Hh Hev.
    unfold all_hex in Hh. rewrite <- length_list_ascii in Hev.
    destruct (proj1 (Decode_pairs _) Hh Hev) as (uid & Hd & Hlen).
    rewrite length_list_ascii in Hlen.
    assert (Hc : convid idstr = Some (copy16 uid)).
    { unfold convid, DecodeString. now rewrite Hd. }
    exists uid. split; [exact Hd|]. split; [exact Hlen|].
    split; [exact Hc|]. split; [apply copy16_length|].
    intros ch now s. eexists. apply (getjob_decoded _ _ _ _ _ Hc).
  - intros idstr ch now s. split.
    + intros [s' H]. destruct (convid idstr) as [id|] eqn:Hc.
      * rewrite (getjob_decoded _ _ _ _ _ Hc) in H.
        destruct (lru_peek (alljobs s) id); discriminate H.
      * unfold convid in Hc.
        destruct (DecodeString idstr); [discriminate|reflexivity].
    + intros Hd. exists s. unfold getjob, convid. now rewrite Hd.
Qed.

(** C8: Fetch does not look at the worker id: for any two worker ids (and
    whatever channel the call makes and whenever it runs) it returns the
    same job, or the same error, and leaves the same server state. *)
Theorem Fetch_independent_of_worker (wid1 wid2 : list Z) (ch1 ch2 : chan)
    (now1 now2 : Z) (s : Server) :
  RPC_Fetch Job_Size wid1 ch1 now1 s = RPC_Fetch Job_Size wid2 ch2 now2 s.
Proof. now rewrite !RPC_Fetch_eq. Qed.

(** C3: on a non-empty queue Fetch removes the head job, sets its Status
    to Running and returns it; on an empty queue it returns at once, with
    the state unchanged and the error "no jobs available to run". *)
Theorem Fetch_head_or_no_jobs (wid : list Z) (ch : chan) (now : Z)
    (s : Server) :
  (forall j q job, queue s = j :: q -> store s !! j = Some job ->
     exists s',
       RPC_Fetch Job_Size wid ch now s = Some (s', Ok j)
       /\ queue s' = q
       /\ store s' !! j = Some (set_Status StatusRunning job)
       /\ Status (set_Status StatusRunning job) = StatusRunning
       /\ (forall p, p <> j -> store s' !! p = store s !! p)
       /\ alljobs s' = alljobs s
       /\ submitchans s' = submitchans s)
  /\ (queue s = [] ->
      RPC_Fetch Job_Size wid ch now s
      = Some (s, Err "no jobs available to run")).
Proof.
  rewrite RPC_Fetch_eq. split.
  - intros j q job Hq Hj. rewrite Hq, Hj. eexists. split; [reflexivity|].
    cbn. split; [reflexivity|]. split; [apply lookup_insert_eq|].
    split; [reflexivity|]. split; [|split; reflexivity].
    intros p Hp. now apply lookup_insert_ne.
  - intros Hq. now rewrite Hq.
Qed.

(** C4: Submit of the job object j sets its Status to Queued and its
    Submitted time to the current time, appends j to the tail of the
    queue, sets it in the cache under its Id (where it is found as long as
    its size fits the capacity), and registers the waiter channel under
    the Id exactly when one is supplied; it sends nothing. *)
Theorem Submit_enqueues_caches_registers (now : Z) (j : loc)
    (Result : option chan) (s : Server) (job : Job) :
  store s !! j = Some job ->
  exists s',
    dispatcher Job_Size now (SubmitJobs j Result) s = Some (s', [])
    /\ store s' !! j = Some (submitted now job)
    /\ Status (submitted now job) = StatusQueued
    /\ Submitted (submitted now job) = now
    /\ (Id (submitted now job) = Id job
        /\ Payload (submitted now job) = Payload job
        /\ Outfiles (submitted now job) = Outfiles job)
    /\ (forall p, p <> j -> store s' !! p = store s !! p)
    /\ queue s' = queue s ++ [j]
    /\ alljobs s'
       = lru_Set (alljobs s) (Id job) j (Job_Size (submitted now job))
    /\ (Job_Size (submitted now job) <= capacity (alljobs s) ->
        lru_peek (alljobs s') (Id job) = Some j)
    /\ submitchans s'
       = match Result with
         | Some ch => <[Id job := ch]> (submitchans s)
         | None => submitchans s
         end.
Proof.
  intros Hj. rewrite (dispatcher_Submit _ _ _ _ _ Hj).
  eexists. split; [reflexivity|]. cbn [store queue alljobs submitchans].
  split; [apply lookup_insert_eq|].
  do 3 (split; [repeat split; reflexivity|]).
  split; [intros p Hp; now apply lookup_insert_ne|].
  do 2 (split; [reflexivity|]).
  split; [|reflexivity]. intros Hsz. now apply lru_peek_Set.
Qed.

(** *** Calls that bring their own Job object *)

Lemma exec_Submit (now : Z) (job : Job) (Result : option chan) (s : Server) :
  exec Job_Size now (EvSubmit job Result) s =
    Some ({| queue := queue s ++ [fresh (dom (store s))];
             alljobs := lru_Set (alljobs s) (Id job) (fresh (dom (store s)))
                          (Job_Size (submitted now job));
             submitchans :=
               match Result with
               | Some ch => <[Id job := ch]> (submitchans s)
               | None => submitchans s
               end;
             store := <[fresh (dom (store s)) := submitted now job]> (store s)
          |}, []).
Proof.
  unfold exec, alloc.
  erewrite dispatcher_Submit by (cbn; apply lookup_insert_eq).
  cbn. now rewrite insert_insert_eq.
Qed.

Lemma exec_Push (now : Z) (job : Job) (s : Server) :
  exec Job_Size now (EvPush job) s =
    Some ({| queue := queue s;
             alljobs := lru_Set (alljobs s) (Id job) (fresh (dom (store s)))
                          (Job_Size job);
             submitchans :=
               match submitchans s !! Id job with
               | Some _ => delete (Id job) (submitchans s)
               | None => submitchans s
               end;
             store := <[fresh (dom (store s)) := job]> (store s) |},
          match submitchans s !! Id job with
          | Some ch => [Send ch (Some (fresh (dom (store s))))]
          | None => []
          end).
Proof.
  unfold exec, alloc.
  erewrite dispatcher_Push by (cbn; apply lookup_insert_eq).
  reflexivity.
Qed.

Lemma quiet_keeps_waiter (id : list Z) (now : Z) (e : event)
    (s s' : Server) (out : list send) :
  exec Job_Size now e s = Some (s', out) -> quiet id e = true ->
  submitchans s' !! id = submitchans s !! id.
Proof.
  intros He Hq. destruct e as [job [ch|]|k r|k r|job|r].
  - rewrite exec_Submit in He. injection He as <- _. cbn in *.
    apply negb_true_iff, bool_decide_eq_false_1 in Hq.
    now apply lookup_insert_ne.
  - rewrite exec_Submit in He. now injection He as <- _.
  - cbn in He. destruct (lru_Get (alljobs s) k). now injection He as <- _.
  - cbn in He. destruct (lru_Get (alljobs s) k). now injection He as <- _.
  - rewrite exec_Push in He. injection He as <- _. cbn in *.
    apply negb_true_iff, bool_decide_eq_false_1 in Hq.
    destruct (submitchans s !! Id job); [|reflexivity].
    now apply lookup_delete_ne.
  - cbn in He. destruct (queue s) as [|j q].
    + now injection He as <- _.
    + destruct (store s !! j); [|discriminate]. now injection He as <- _.
Qed.

Lemma quiet_run_keeps_waiter (id : list Z) (mid : list (Z * event)) :
  forall (s s' : Server) (out : list send),
    run (exec Job_Size) mid s = Some (s', out) ->
    forallb (fun e => quiet id e.2) mid = true ->
    submitchans s' !! id = submitchans s !! id.
Proof.
  induction mid as [|[now e] mid IH]; intros s s' out Hr Hq.
  - now injection Hr as <- _.
  - cbn in Hr, Hq. apply andb_prop in Hq as [Hq1 Hq2].
    destruct (exec Job_Size now e s) as [[s1 o1]|] eqn:E1; [|discriminate].
    cbn in Hr.
    destruct (run (exec Job_Size) mid s1) as [[s2 o2]|] eqn:E2;
      [|discriminate].
    injection Hr as <- _.
    rewrite (IH _ _ _ E2 Hq2). exact (quiet_keeps_waiter _ _ _ _ _ _ E1 Hq1).
Qed.

(** C1: after a synchronous Submit of a job (with waiter channel ch), and
    whatever happens in between that neither registers another waiter
    under this Id nor pushes it, a Push of a job with the same Id sends
    exactly the pushed job object on ch, which is what the blocked Submit
    call receives, and removes the registration; a second Push with the
    same Id (again after any such events) sends nothing and changes the
    cache only (the store just gains the pushed object). *)
Theorem Push_serves_waiter_once (s : Server) (job : Job) (ch : chan)
    (now : Z) :
  exists s1,
    exec Job_Size now (EvSubmit job (Some ch)) s = Some (s1, [])
    /\ forall mid s1' out,
        run (exec Job_Size) mid s1 = Some (s1', out) ->
        forallb (fun e => quiet (Id job) e.2) mid = true ->
        forall job1 now1, Id job1 = Id job ->
        exists s2 j1,
          exec Job_Size now1 (EvPush job1) s1'
          = Some (s2, [Send ch (Some j1)])
          /\ store s2 !! j1 = Some job1
          /\ RPC_Submit_result ch [Send ch (Some j1)] = Some (Some j1)
          /\ submitchans s2 !! Id job = None
          /\ forall mid' s2' out',
             run (exec Job_Size) mid' s2 = Some (s2', out') ->
             forallb (fun e => quiet (Id job) e.2) mid' = true ->
             forall job2 now2, Id job2 = Id job ->
             exists s3 j2,
               exec Job_Size now2 (EvPush job2) s2' = Some (s3, [])
               /\ queue s3 = queue s2'
               /\ submitchans s3 = submitchans s2'
               /\ store s2' !! j2 = None
               /\ store s3 = <[j2 := job2]> (store s2')
               /\ alljobs s3
                  = lru_Set (alljobs s2') (Id job) j2 (Job_Size job2).
Proof.
  rewrite exec_Submit. eexists. split; [reflexivity|].
  intros mid s1' out Hrun Hq job1 now1 Hid.
  pose proof (quiet_run_keeps_waiter _ _ _ _ _ Hrun Hq) as Hw.
  cbn [submitchans] in Hw. rewrite lookup_insert_eq in Hw.
  rewrite exec_Push, Hid, Hw.
  eexists _, _. split; [reflexivity|]. cbn [store submitchans].
  split; [apply lookup_insert_eq|]. split; [apply recv_own|].
  split; [apply lookup_delete_eq|].
  intros mid' s2' out' Hrun' Hq' job2 now2 Hid2.
  pose proof (quiet_run_keeps_waiter _ _ _ _ _ Hrun' Hq') as Hw'.
  cbn [submitchans] in Hw'. rewrite lookup_delete_eq in Hw'.
  rewrite exec_Push, Hid2, Hw'.
  eexists _, _. split; [reflexivity|]. cbn [store submitchans queue alljobs].
  do 2 (split; [reflexivity|]).
  split; [|split; reflexivity].
  apply fresh_lookup.
Qed.

(** *** Sequences of Submit calls *)

Lemma run_submits (subs : list (Z * (Job * option chan))) :
  forall s : Server,
  exists s' ptrs,
    run (exec Job_Size) (submits subs) s = Some (s', [])
    /\ queue s' = queue s ++ ptrs
    /\ Forall2 (fun p sub => store s' !! p = Some (submitted sub.1 sub.2.1))
         ptrs subs
    /\ (forall p, is_Some (store s !! p) -> store s' !! p = store s !! p).
Proof.
  induction subs as [|[now [job r]] subs IH]; intros s.
  - exists s, []. cbn. rewrite app_nil_r. repeat split; auto.
  - cbn [submits map run fst snd]. rewrite exec_Submit. cbn [mbind option_bind].
    set (p := fresh (dom (store s))).
    set (s1 := {| queue := queue s ++ [p]; alljobs := _;
                  submitchans := _; store := _ |}).
    destruct (IH s1) as (s' & ptrs & Hrun & Hq & Hall & Hkeep).
    fold (submits subs). rewrite Hrun. cbn.
    exists s', (p :: ptrs). split; [reflexivity|].
    split; [rewrite Hq; cbn; now rewrite <- app_assoc|].
    split.
    + constructor; [|exact Hall]. cbn [fst snd].
      rewrite Hkeep; cbn; rewrite lookup_insert_eq; eauto.
    + intros q Hs. rewrite Hkeep.
      * cbn. apply lookup_insert_ne. intros <-.
        unfold p in Hs. rewrite fresh_store in Hs. now destruct Hs.
      * cbn. rewrite lookup_insert_ne; [exact Hs|]. intros <-.
        unfold p in Hs. rewrite fresh_store in Hs. now destruct Hs.
Qed.

(** C2: after any sequence of Submit calls with no Fetch in between, the
    queue is the old queue followed by the submitted jobs in submission
    order (each Queued and stamped with its time); if the queue was empty
    before, the first Fetch then returns the first-submitted job, now
    Running. *)
Theorem queue_keeps_submission_order (s : Server)
    (subs : list (Z * (Job * option chan))) :
  exists s' ptrs,
    run (exec Job_Size) (submits subs) s = Some (s', [])
    /\ queue s' = queue s ++ ptrs
    /\ Forall2 (fun p sub => store s' !! p = Some (submitted sub.1 sub.2.1))
         ptrs subs
    /\ (queue s = [] ->
        forall sub rest, subs = sub :: rest ->
        forall wid ch now,
        exists s'' p,
          RPC_Fetch Job_Size wid ch now s' = Some (s'', Ok p)
          /\ head ptrs = Some p
          /\ store s'' !! p
             = Some (set_Status StatusRunning (submitted sub.1 sub.2.1))).
Proof.
  destruct (run_submits subs s) as (s' & ptrs & Hrun & Hq & Hall & _).
  exists s', ptrs. do 3 (split; [assumption|]).
  intros Hempty sub rest -> wid ch now.
  inversion Hall as [|p sub' ptrs' rest' Hp Hrest]; subst.
  rewrite Hempty in Hq. cbn in Hq.
  rewrite RPC_Fetch_eq, Hq, Hp. cbn.
  eexists _, p. split; [reflexivity|]. split; [reflexivity|].
  cbn. apply lookup_insert_eq.
Qed.

(** *** The HTTP handlers *)

Variable fmt_Status : JobStatus -> string.
Variable json_Unmarshal : list Z -> Job -> result (option Job).

(** C7: when the body of a submission cannot be read, or cannot be
    unmarshalled, the caller gets a 400 reply carrying the error text and
    the server is left exactly as it was: queue, cache, waiter registry
    (and the job objects) are unchanged. *)
Theorem malformed_submit_changes_nothing (body : result (list Z))
    (newjob : Job) (now : Z) (s : Server) (e : string) :
  body = Err e
  \/ (exists data, body = Ok data /\ json_Unmarshal data newjob = Err e) ->
  exists s',
    submit Job_Size json_Unmarshal body newjob now s
    = Some (s', HttpError 400 e)
    /\ queue s' = queue s
    /\ alljobs s' = alljobs s
    /\ submitchans s' = submitchans s
    /\ store s' = store s.
Proof.
  intros [->|(data & -> & Hu)]; exists s; cbn.
  - repeat split; reflexivity.
  - rewrite Hu. repeat split; reflexivity.
Qed.

(** What the zip loop of retrieve leaves in the buffer. *)
Lemma write_last_app (data : list Z) (zw : zipWriter) (f : File) :
  write_last data (zw ++ [f])
  = zw ++ [{| Name := Name f; Data := Data f ++ data |}].
Proof.
  induction zw as [|g zw IH]; [reflexivity|].
  change ((g :: zw) ++ [f]) with (g :: (zw ++ [f])).
  cbn [write_last]. rewrite IH.
  destruct zw; reflexivity.
Qed.

Lemma zip_step (io : iofaults) (fd : File) (fs : list File)
    (zw : zipWriter) :
  zip_Create io (Name fd) = None -> zip_Write io (Data fd) = None ->
  zip_all io (fd :: fs) zw = zip_all io fs (zw ++ [fd]).
Proof.
  intros Hc Hw. cbn [zip_all]. unfold Writer_Create, Writer_Write.
  rewrite Hc, Hw, write_last_app. cbn [Name Data app].
  now destruct fd.
Qed.

Lemma zip_all_Ok (io : iofaults) (fs : list File) (zw buf : zipWriter) :
  zip_all io fs zw = Ok buf <->
  buf = zw ++ fs
  /\ forall fd, In fd fs ->
       zip_Create io (Name fd) = None /\ zip_Write io (Data fd) = None.
Proof.
  revert zw. induction fs as [|fd fs IH]; intros zw.
  - cbn [zip_all]. rewrite app_nil_r. split.
    + intros [= <-]. split; [reflexivity|]. intros fd [].
    + now intros [-> _].
  - split.
    + intros H.
      destruct (zip_Create io (Name fd)) as [e|] eqn:Hc.
      { cbn [zip_all] in H. unfold Writer_Create in H. rewrite Hc in H.
        discriminate. }
      destruct (zip_Write io (Data fd)) as [e|] eqn:Hw.
      { cbn [zip_all] in H. unfold Writer_Create, Writer_Write in H.
        rewrite Hc, Hw in H. discriminate. }
      rewrite (zip_step _ _ _ _ Hc Hw) in H. apply IH in H as [-> Hall].
      split; [now rewrite <- app_assoc|].
      intros fd' [<-|Hin]; [now split|now apply Hall].
    + intros [-> Hall].
      destruct (Hall fd (or_introl eq_refl)) as [Hc Hw].
      rewrite (zip_step _ _ _ _ Hc Hw). apply IH.
      split; [now rewrite <- app_assoc|].
      intros fd' Hin. apply Hall. now right.
Qed.


Lemma retrieve_decoded (io : iofaults) (path idstr : string) (ch : chan)
    (now : Z) (s : Server) (id : list Z) :
  slice_from (String.length "/job/retrieve/") path = Some idstr ->
  convid idstr = Some id ->
  retrieve Job_Size fmt_Status io path ch now s =
    let s' := {| queue := queue s; alljobs := snd (lru_Get (alljobs s) id);
                 submitchans := submitchans s; store := store s |} in
    match lru_peek (alljobs s) id with
    | None => Some (s', HttpError 400 ("unknown job id " +:+ idstr))
    | Some j =>
        job ← store s !! j;
        if bool_decide (Status job <> StatusComplete) then
          Some (s', HttpError 400
                      ("job " +:+ idstr +:+ " status: "
                         +:+ fmt_Status (Status job)))
        else
          let hdr :=
            [("Content-Disposition",
              "filename=" +:+ dquote +:+ "results-id-"
                +:+ hex.EncodeToString (Id job) +:+ ".tar" +:+ dquote)] in
          match zip_all io (Outfiles job) NewWriter with
          | Err _ => Some (s', HttpAborted hdr)
          | Ok buf =>
              match zip_Close io with
              | Some e => Some (s', HttpError 500 e)
              | None =>
                  match io_Copy io with
                  | Some e => Some (s', HttpError 500 e)
                  | None => Some (s', HttpArchive hdr buf)
                  end
              end
          end
    end.
Proof.
  intros Hp Hc. unfold retrieve. rewrite Hp. cbn [mbind option_bind].
  rewrite (getjob_decoded _ _ _ _ _ Hc). cbn [mbind option_bind].
  destruct (lru_peek (alljobs s) id); reflexivity.
Qed.

(** C6: a retrieve request for an id that is not in the cache is answered
    with a 400 reply saying "unknown job id"; for a cached job whose
    Status is not Complete with a 400 reply whose text ends in the current
    Status; a reply carries an archive only when the Status is Complete,
    and what the zip loop has then written into the archive is every
    Outfile of the job, name and data, in order; a Complete job gets that
    reply when no Create, Write, Close or Copy reports an error. *)
Theorem retrieve_replies (io : iofaults) (path idstr : string) (ch : chan)
    (now : Z) (s : Server) :
  slice_from (String.length "/job/retrieve/") path = Some idstr ->
  (forall id, convid idstr = Some id ->
     (lru_peek (alljobs s) id = None ->
      exists s',
        retrieve Job_Size fmt_Status io path ch now s
        = Some (s', HttpError 400 ("unknown job id " +:+ idstr)))
     /\ (forall j job,
          lru_peek (alljobs s) id = Some j -> store s !! j = Some job ->
          (Status job <> StatusComplete ->
           exists s',
             retrieve Job_Size fmt_Status io path ch now s
             = Some (s', HttpError 400
                           ("job " +:+ idstr +:+ " status: "
                              +:+ fmt_Status (Status job))))
          /\ (Status job = StatusComplete ->
              (forall fd, In fd (Outfiles job) ->
                 zip_Create io (Name fd) = None
                 /\ zip_Write io (Data fd) = None) ->
              zip_Close io = None -> io_Copy io = None ->
              exists s' hdr,
                retrieve Job_Size fmt_Status io path ch now s
                = Some (s', HttpArchive hdr (Outfiles job)))))
  /\ (forall s' hdr files,
        retrieve Job_Size fmt_Status io path ch now s
        = Some (s', HttpArchive hdr files) ->
        exists id j job,
          convid idstr = Some id
          /\ lru_peek (alljobs s) id = Some j
          /\ store s !! j = Some job
          /\ Status job = StatusComplete
          /\ files = Outfiles job).
Proof.
  intros Hp. split.
  - intros id Hc. rewrite (retrieve_decoded _ _ _ _ _ _ _ Hp Hc). cbn zeta.
    split.
    + intros ->. eauto.
    + intros j job -> Hj. rewrite Hj. cbn [mbind option_bind]. split.
      * intros Hst. rewrite bool_decide_eq_true_2 by exact Hst. eauto.
      * intros Hst Hz Hcl Hcp.
        rewrite bool_decide_eq_false_2 by (intros H; now apply H).
        rewrite (proj2 (zip_all_Ok io _ NewWriter _) (conj eq_refl Hz)).
        rewrite Hcl, Hcp. eauto.
  - intros s' hdr files H.
    destruct (convid idstr) as [id|] eqn:Hc.
    + rewrite (retrieve_decoded _ _ _ _ _ _ _ Hp Hc) in H. cbn zeta in H.
      destruct (lru_peek (alljobs s) id) as [j|] eqn:Hpk; [|discriminate].
      destruct (store s !! j) as [job|] eqn:Hj; [|discriminate].
      cbn [mbind option_bind] in H.
      destruct (bool_decide_reflect (Status job <> StatusComplete)) as [Hn|Hn];
        [discriminate|].
      destruct (zip_all io (Outfiles job) NewWriter) as [buf|e] eqn:Hz;
        [|discriminate].
      apply zip_all_Ok in Hz as [-> _].
      destruct (zip_Close io); [discriminate|].
      destruct (io_Copy io); [discriminate|].
      injection H as _ _ <-. exists id, j, job.
      do 3 (split; [reflexivity || assumption|]). split; [|reflexivity].
      destruct (decide (Status job = StatusComplete)); [assumption|contradiction].
    + unfold retrieve, getjob in H. rewrite Hp in H. cbn [mbind option_bind] in H.
      rewrite Hc in H. discriminate.
Qed.

End DispatcherProperties.

(** ** The order of observed Status values *)

Section StatusOrder.


Import hex cloudlus.

Variable Job_Size : Job -> Z.

Lemma exec_Stat (now : Z) (k : list Z) (r : chan) (s : Server) :
  exec Job_Size now (EvStat k r) s =
    Some ({| queue := queue s; alljobs := snd (lru_Get (alljobs s) k);
             submitchans := submitchans s; store := store s |},
          [Send r (lru_peek (alljobs s) k)]).
Proof.
  unfold exec, dispatcher, lru_peek. now destruct (lru_Get (alljobs s) k).
Qed.

Lemma exec_Retrieve (now : Z) (k : list Z) (r : chan) (s : Server) :
  exec Job_Size now (EvRetrieve k r) s =
    Some ({| queue := queue s; alljobs := snd (lru_Get (alljobs s) k);
             submitchans := submitchans s; store := store s |},
          [Send r (lru_peek (alljobs s) k)]).
Proof.
  unfold exec, dispatcher, lru_peek. now destruct (lru_Get (alljobs s) k).
Qed.

Lemma fresh_not_queued (s : Server) :
  queue_allocated s -> ~ In (fresh (dom (store s))) (queue s).
Proof.
  intros Hq Hin. apply Hq in Hin. rewrite fresh_store in Hin.
  now destruct Hin.
Qed.

Lemma allocated_not_fresh (s : Server) (p : loc) (job : Job) :
  store s !! p = Some job -> p <> fresh (dom (store s)).
Proof. intros H ->. rewrite fresh_store in H. discriminate. Qed.

Lemma exec_allocated (now : Z) (e : event) (s : Server) :
  queue_allocated s ->
  exists s' out, exec Job_Size now e s = Some (s', out) /\ queue_allocated s'.
Proof.
  intros Hq. destruct e as [job r|k r|k r|job|r].
  - rewrite exec_Submit. eexists _, _. split; [reflexivity|].
    intros j Hj. cbn in *. apply in_app_or in Hj as [Hj|[<-|[]]].
    + apply lookup_insert_is_Some'. right. now apply Hq.
    + apply lookup_insert_is_Some'. now left.
  - rewrite exec_Retrieve. eexists _, _. split; [reflexivity|]. exact Hq.
  - rewrite exec_Stat. eexists _, _. split; [reflexivity|]. exact Hq.
  - rewrite exec_Push. eexists _, _. split; [reflexivity|].
    intros j Hj. cbn in *. apply lookup_insert_is_Some'. right. now apply Hq.
  - cbn. destruct (queue s) as [|j q] eqn:Eq.
    + eexists _, _. split; [reflexivity|]. exact Hq.
    + destruct (Hq j) as [jb Hjb]; [rewrite Eq; now left|].
      rewrite Hjb. cbn. eexists _, _. split; [reflexivity|].
      intros j' Hj'. cbn in *. apply lookup_insert_is_Some'. right.
      apply Hq. rewrite Eq. now right.
Qed.

Lemma tracks_observed (id : list Z) (ph : phase) (lv : nat) (s : Server)
    (a : JobStatus) :
  tracks id ph lv s -> observed s id = Some a -> rank a = lv.
Proof.
  intros Htr Ho. unfold observed in Ho.
  destruct (lru_peek (alljobs s) id) as [j|] eqn:Hpk; [|discriminate].
  cbn in Ho. destruct (store s !! j) as [jb|] eqn:Hj; [|discriminate].
  cbn in Ho. injection Ho as <-.
  apply lru_peek_In in Hpk as (e & Hin & Hk & Hv).
  destruct ph; cbn in Htr.
  - destruct Htr as [_ H]. now apply H in Hin.
  - destruct Htr as (p & job & Hp & Hr & _ & Hc).
    rewrite (Hc e Hin Hk) in Hv. subst j. congruence.
  - destruct Htr as [-> Hc].
    destruct (Hc e Hin Hk) as [(job & Hjob & Hf) _].
    rewrite Hv in Hjob. assert (job = jb) by congruence. subst job.
    now destruct (Status jb).
Qed.

Lemma tracks_Submit (id : list Z) (now : Z) (job : Job) (r : option chan)
    (s s' : Server) (out : list send) (ph ph' : phase) (lv : nat) :
  queue_allocated s -> tracks id ph lv s ->
  advance id ph (EvSubmit job r) = Some ph' ->
  exec Job_Size now (EvSubmit job r) s = Some (s', out) ->
  exists lv', tracks id ph' lv' s' /\ (lv <= lv')%nat.
Proof.
  intros Hq Htr Hadv He. rewrite exec_Submit in He. injection He as <- _.
  cbn in Hadv. destruct (decide (Id job = id)) as [Hid|Hid].
  - destruct ph; try discriminate. injection Hadv as <-.
    destruct Htr as [-> _]. exists 0%nat. split; [|lia].
    exists (fresh (dom (store s))), (submitted now job). cbn.
    split; [apply lookup_insert_eq|]. split; [reflexivity|]. split; [lia|].
    intros e Hin Hk. apply lru_Set_In in Hin as [->|[_ Hne]];
      [reflexivity|congruence].
  - injection Hadv as <-. exists lv. split; [|lia].
    destruct ph; cbn in Htr |- *.
    + destruct Htr as [-> H]. split; [reflexivity|].
      intros e Hin. apply lru_Set_In in Hin as [->|[Hin _]]; cbn; auto.
    + destruct Htr as (p & jb & Hp & Hr & Hl & Hc). exists p, jb.
      split; [rewrite lookup_insert_ne; eauto using not_eq_sym, allocated_not_fresh|].
      do 2 (split; [assumption|]).
      intros e Hin Hk. apply lru_Set_In in Hin as [->|[Hin _]]; cbn in *;
        [congruence|auto].
    + destruct Htr as [-> Hc]. split; [reflexivity|].
      intros e Hin Hk. apply lru_Set_In in Hin as [->|[Hin _]]; cbn in *;
        [congruence|].
      destruct (Hc e Hin Hk) as [(jb & Hjb & Hf) Hnq].
      pose proof (allocated_not_fresh _ _ _ Hjb) as Hne. split.
      * exists jb. rewrite lookup_insert_ne; auto.
      * intros Hin'. apply in_app_or in Hin' as [Hin'|[Heq|[]]]; auto.
Qed.

Lemma tracks_Push (id : list Z) (now : Z) (job : Job)
    (s s' : Server) (out : list send) (ph ph' : phase) (lv : nat) :
  queue_allocated s -> tracks id ph lv s ->
  advance id ph (EvPush job) = Some ph' ->
  exec Job_Size now (EvPush job) s = Some (s', out) ->
  exists lv', tracks id ph' lv' s' /\ (lv <= lv')%nat.
Proof.
  intros Hq Htr Hadv He. rewrite exec_Push in He. injection He as <- _.
  cbn in Hadv. destruct (decide (Id job = id)) as [Hid|Hid].
  - destruct (final (Status job)) eqn:Hf; [|discriminate].
    injection Hadv as <-. exists 2%nat. split.
    + split; [reflexivity|]. cbn. intros e Hin Hk.
      apply lru_Set_In in Hin as [->|[_ Hne]]; [|congruence]. cbn. split.
      * exists job. split; [apply lookup_insert_eq|exact Hf].
      * now apply fresh_not_queued.
    + destruct ph; cbn in Htr.
      * destruct Htr as [-> _]. lia.
      * destruct Htr as (_ & _ & _ & _ & Hl & _). lia.
      * destruct Htr as [-> _]. lia.
  - injection Hadv as <-. exists lv. split; [|lia].
    destruct ph; cbn in Htr |- *.
    + destruct Htr as [-> H]. split; [reflexivity|].
      intros e Hin. apply lru_Set_In in Hin as [->|[Hin _]]; cbn; auto.
    + destruct Htr as (p & jb & Hp & Hr & Hl & Hc). exists p, jb.
      split; [rewrite lookup_insert_ne; eauto using not_eq_sym, allocated_not_fresh|].
      do 2 (split; [assumption|]).
      intros e Hin Hk. apply lru_Set_In in Hin as [->|[Hin _]]; cbn in *;
        [congruence|auto].
    + destruct Htr as [-> Hc]. split; [reflexivity|].
      intros e Hin Hk. apply lru_Set_In in Hin as [->|[Hin _]]; cbn in *;
        [congruence|].
      destruct (Hc e Hin Hk) as [(jb & Hjb & Hf) Hnq].
      pose proof (allocated_not_fresh _ _ _ Hjb) as Hne. split; [|exact Hnq].
      exists jb. rewrite lookup_insert_ne; auto.
Qed.

Lemma tracks_Get (id k : list Z) (s : Server) (ph : phase) (lv : nat) :
  tracks id ph lv s ->
  tracks id ph lv {| queue := queue s; alljobs := snd (lru_Get (alljobs s) k);
                     submitchans := submitchans s; store := store s |}.
Proof.
  destruct ph; cbn.
  - intros [-> H]. split; [reflexivity|]. intros e Hin.
    apply lru_Get_In in Hin. auto.
  - intros (p & jb & Hp & Hr & Hl & Hc). exists p, jb.
    do 3 (split; [assumption|]). intros e Hin. apply lru_Get_In in Hin. auto.
  - intros [-> Hc]. split; [reflexivity|]. intros e Hin.
    apply lru_Get_In in Hin. auto.
Qed.

Lemma tracks_Fetch (id : list Z) (now : Z) (r : chan)
    (s s' : Server) (out : list send) (ph : phase) (lv : nat) :
  tracks id ph lv s ->
  exec Job_Size now (EvFetch r) s = Some (s', out) ->
  exists lv', tracks id ph lv' s' /\ (lv <= lv')%nat.
Proof.
  intros Htr He. cbn in He. destruct (queue s) as [|j q] eqn:Eq.
  - injection He as <- _. exists lv. split; [exact Htr|lia].
  - destruct (store s !! j) as [jb|] eqn:Hj; [|discriminate].
    cbn in He. injection He as <- _.
    destruct ph; cbn in Htr |- *.
    + exists lv. split; [exact Htr|lia].
    + destruct Htr as (p & job & Hp & Hr & Hl & Hc).
      destruct (decide (p = j)) as [->|Hne].
      * exists 1%nat. split; [|lia].
        exists j, (set_Status StatusRunning jb).
        split; [apply lookup_insert_eq|]. split; [reflexivity|].
        split; [lia|exact Hc].
      * exists lv. split; [|lia]. exists p, job.
        split; [rewrite lookup_insert_ne; auto|]. auto.
    + exists lv. split; [|lia]. destruct Htr as [-> Hc].
      split; [reflexivity|]. intros e Hin Hk.
      destruct (Hc e Hin Hk) as [(job & Hjob & Hf) Hnq]. rewrite Eq in Hnq.
      split.
      * exists job. rewrite lookup_insert_ne; [auto|].
        intros Heq. apply Hnq. left. exact Heq.
      * intros Hin'. apply Hnq. now right.
Qed.

Lemma tracks_step (id : list Z) (now : Z) (e : event)
    (s s' : Server) (out : list send) (ph ph' : phase) (lv : nat) :
  queue_allocated s -> tracks id ph lv s ->
  advance id ph e = Some ph' ->
  exec Job_Size now e s = Some (s', out) ->
  exists lv', tracks id ph' lv' s' /\ (lv <= lv')%nat.
Proof.
  intros Hq Htr Hadv He. destruct e as [job r|k r|k r|job|r].
  - eapply tracks_Submit; eauto.
  - injection Hadv as <-. rewrite exec_Retrieve in He. injection He as <- _.
    exists lv. split; [now apply tracks_Get|lia].
  - injection Hadv as <-. rewrite exec_Stat in He. injection He as <- _.
    exists lv. split; [now apply tracks_Get|lia].
  - eapply tracks_Push; eauto.
  - injection Hadv as <-. eapply tracks_Fetch; eauto.
Qed.

(** A disciplined sequence runs to the end from any state whose queue is
    allocated, keeps the bookkeeping of [tracks], and never lowers the
    rank. *)
Lemma tracks_run (id : list Z) (t : list (Z * event)) :
  forall (s : Server) (ph : phase) (lv : nat),
    queue_allocated s -> tracks id ph lv s ->
    disciplined id ph t = true ->
    exists s' out ph' lv',
      run (exec Job_Size) t s = Some (s', out)
      /\ queue_allocated s' /\ tracks id ph' lv' s' /\ (lv <= lv')%nat
      /\ forall t', disciplined id ph (t ++ t') = disciplined id ph' t'.
Proof.
  induction t as [|[now e] t IH]; intros s ph lv Hq Htr Hd.
  - exists s, [], ph, lv. cbn. repeat split; auto.
  - cbn in Hd. destruct (advance id ph e) as [ph1|] eqn:Hadv; [|discriminate].
    destruct (exec_allocated now e s Hq) as (s1 & o1 & He & Hq1).
    destruct (tracks_step _ _ _ _ _ _ _ _ _ Hq Htr Hadv He) as (lv1 & Htr1 & Hle1).
    destruct (IH s1 ph1 lv1 Hq1 Htr1 Hd)
      as (s' & o2 & ph' & lv' & Hrun & Hq' & Htr' & Hle' & Hcont).
    exists s', (o1 ++ o2), ph', lv'. cbn [run]. rewrite He. cbn. rewrite Hrun. cbn.
    split; [reflexivity|]. split; [assumption|]. split; [assumption|].
    split; [lia|]. intros t'. cbn. rewrite Hadv. apply Hcont.
Qed.

(** C5, as the code has it: a Push stores the Status the pushed job
    carries and a Submit writes Queued, so the order of observed Status
    values rests on the callers.  Over every sequence of Submit, Fetch,
    Push, Stat and Retrieve calls on a new server in which the Id is
    submitted at most once and not after a Push for it, and every Push for
    the Id carries Complete or Failed, the sequence runs to its end and a
    Status observed for the Id later is never of lower rank than one
    observed earlier (Queued, Running, then Complete or Failed). *)
Theorem Status_never_regresses_under_discipline (id : list Z)
    (t1 t2 : list (Z * event)) :
  disciplined id Unseen (t1 ++ t2) = true ->
  exists s1 out1 s2 out2,
    run (exec Job_Size) t1 NewServer = Some (s1, out1)
    /\ run (exec Job_Size) t2 s1 = Some (s2, out2)
    /\ forall a b,
         observed s1 id = Some a -> observed s2 id = Some b ->
         (rank a <= rank b)%nat.
Proof.
  intros Hd.
  assert (Hd1 : disciplined id Unseen t1 = true).
  { clear -Hd. revert Hd. generalize Unseen.
    induction t1 as [|[now e] t IH]; intros ph Hd; [reflexivity|].
    cbn in *. destruct (advance id ph e); [auto|discriminate]. }
  assert (Hq0 : queue_allocated NewServer) by (intros j []).
  assert (Htr0 : tracks id Unseen 0 NewServer)
    by (split; [reflexivity|intros e []]).
  destruct (tracks_run id t1 _ _ _ Hq0 Htr0 Hd1)
    as (s1 & o1 & ph1 & lv1 & Hrun1 & Hq1 & Htr1 & _ & Hcont).
  rewrite Hcont in Hd.
  destruct (tracks_run id t2 _ _ _ Hq1 Htr1 Hd)
    as (s2 & o2 & ph2 & lv2 & Hrun2 & _ & Htr2 & Hle & _).
  exists s1, o1, s2, o2. do 2 (split; [assumption|]).
  intros a b Ha Hb.
  rewrite (tracks_observed _ _ _ _ _ Htr1 Ha), (tracks_observed _ _ _ _ _ Htr2 Hb).
  exact Hle.
Qed.

End StatusOrder.

(** ** Properties of interpolate *)

Section InterpProperties.

Import scen.

Variable F : Type.
Variables (fle : F -> F -> bool) (fadd fsub fmul fdiv : F -> F -> F).
Variable Sort : list (sample F) -> list (sample F).

Lemma index_in_range (ss : list (sample F)) (i : Z) :
  0 <= i < len F ss -> exists a, index F ss i = Some a.
Proof.
  intros [H0 H1]. unfold index.
  rewrite (proj2 (Z.leb_le 0 i) H0), (proj2 (Z.ltb_lt i _) H1). cbn.
  destruct (nth_error ss (Z.to_nat i)) as [a|] eqn:E; [eauto|].
  apply nth_error_None in E. unfold len in H1. lia.
Qed.

Lemma scan_in_range (ss : list (sample F)) (x : F) (n : nat) :
  forall i, 0 <= i -> i + Z.of_nat n < len F ss ->
  exists r, scan F fle fadd fsub fmul fdiv ss x i n = Some r.
Proof.
  induction n as [|n IH]; intros i H0 Hn; [cbn; eauto|].
  cbn [scan].
  destruct (index_in_range ss i) as [l ->]; [lia|].
  destruct (index_in_range ss (i + 1)) as [r ->]; [lia|].
  cbn. destruct (fle x (X F r)); [eauto|].
  apply IH; lia.
Qed.

(** C10: with fewer than two samples every evaluation of the function
    interpolate returns panics on an out-of-range slice bound or index;
    with at least two samples (with distinct X values or not) every
    evaluation returns a value without any out-of-range access. *)
Theorem interpolate_total_from_two_samples (samples : list (sample F)) :
  (forall l, Permutation (Sort l) l) ->
  ((List.length samples < 2)%nat ->
   forall x, interpolate F fle fadd fsub fmul fdiv Sort samples x = None)
  /\ ((2 <= List.length samples)%nat ->
      forall x, exists y,
        interpolate F fle fadd fsub fmul fdiv Sort samples x = Some y).
Proof.
  intros Hperm. unfold interpolate.
  pose proof (Permutation_length (Hperm samples)) as Hlen.
  set (ss := Sort samples) in *. split.
  - intros Hlt x. unfold slice_to, len.
    destruct ss as [|a [|b ss']]; cbn in Hlen; [reflexivity| |lia].
    reflexivity.
  - intros Hge x.
    assert (Hn : 2 <= len F ss) by (unfold len; lia).
    unfold slice_to.
    rewrite (proj2 (Z.leb_le 0 (len F ss - 1))) by lia.
    rewrite (proj2 (Z.leb_le (len F ss - 1) (len F ss))) by lia.
    cbn [andb mbind option_bind].
    destruct (scan_in_range ss x (List.length (take (Z.to_nat (len F ss - 1)) ss)) 0)
      as [r ->]; [lia| |].
    { rewrite length_take. unfold len. lia. }
    cbn [mbind option_bind]. destruct r as [y|]; [eauto|].
    destruct (index_in_range ss (len F ss - 1 - 1)) as [l ->]; [lia|].
    destruct (index_in_range ss (len F ss - 1)) as [r ->]; [lia|].
    cbn. eauto.
Qed.

End InterpProperties.

(** ** The theorems at concrete inputs *)

Section Examples.

Import hex cloudlus scen.

Lemma Push_serves_waiter_once_example :
  exists s1 s2 j1 s3,
    exec byte_size 1 (EvSubmit jobA (Some 7%positive)) NewServer
    = Some (s1, [])
    /\ exec byte_size 2 (EvPush doneA) s1
       = Some (s2, [Send 7%positive (Some j1)])
    /\ store s2 !! j1 = Some doneA
    /\ exec byte_size 3 (EvPush doneA) s2 = Some (s3, []).
Proof.
  destruct (Push_serves_waiter_once byte_size NewServer jobA 7%positive 1)
    as (s1 & H1 & H).
  destruct (H [] s1 [] eq_refl eq_refl doneA 2 eq_refl)
    as (s2 & j1 & H2 & H3 & _ & _ & H').
  destruct (H' [] s2 [] eq_refl eq_refl doneA 3 eq_refl) as (s3 & j2 & H4 & _).
  exists s1, s2, j1, s3. repeat split; assumption.
Defined.

Lemma queue_keeps_submission_order_example :
  exists s' s'' p,
    run (exec byte_size) (submits [(1, (jobA, None)); (2, (jobB, None))])
      NewServer = Some (s', [])
    /\ RPC_Fetch byte_size idB 9%positive 3 s' = Some (s'', Ok p)
    /\ store s'' !! p = Some (set_Status StatusRunning (submitted 1 jobA)).
Proof.
  destruct (queue_keeps_submission_order byte_size NewServer
              [(1, (jobA, None)); (2, (jobB, None))])
    as (s' & ptrs & Hrun & _ & _ & Hf).
  destruct (Hf eq_refl _ _ eq_refl idB 9%positive 3) as (s'' & p & H1 & _ & H2).
  exists s', s'', p. repeat split; assumption.
Defined.

Lemma Fetch_head_or_no_jobs_example :
  (exists s', RPC_Fetch byte_size idB 9%positive 3 queuedA = Some (s', Ok 1%positive)
              /\ queue s' = [])
  /\ RPC_Fetch byte_size idB 9%positive 3 NewServer
     = Some (NewServer, Err "no jobs available to run").
Proof.
  split.
  - destruct (proj1 (Fetch_head_or_no_jobs byte_size idB 9%positive 3 queuedA)
                1%positive [] jobA eq_refl ltac:(vm_compute; reflexivity))
      as (s' & H1 & H2 & _).
    exists s'. split; assumption.
  - exact (proj2 (Fetch_head_or_no_jobs byte_size idB 9%positive 3 NewServer)
             eq_refl).
Defined.

Lemma Submit_enqueues_caches_registers_example :
  exists s',
    dispatcher byte_size 5 (SubmitJobs 1%positive (Some 7%positive)) holdingA
    = Some (s', [])
    /\ queue s' = [1%positive]
    /\ lru_peek (alljobs s') idA = Some 1%positive
    /\ submitchans s' = <[idA := 7%positive]> ∅.
Proof.
  destruct (Submit_enqueues_caches_registers byte_size 5 1%positive
              (Some 7%positive) holdingA jobA ltac:(vm_compute; reflexivity))
    as (s' & H1 & _ & _ & _ & _ & _ & H2 & _ & H3 & H4).
  exists s'. split; [exact H1|]. split; [exact H2|].
  split; [|exact H4]. apply H3. vm_compute. discriminate.
Defined.

Lemma Status_never_regresses_under_discipline_example :
  exists s1 out1 s2 out2,
    run (exec byte_size)
      [(1, EvSubmit jobA None); (2, EvFetch 9%positive)] NewServer
    = Some (s1, out1)
    /\ run (exec byte_size)
         [(3, EvPush doneA); (4, EvStat idA 5%positive)] s1
       = Some (s2, out2)
    /\ forall a b,
         observed s1 idA = Some a -> observed s2 idA = Some b ->
         (rank a <= rank b)%nat.
Proof.
  exact (Status_never_regresses_under_discipline byte_size idA
           [(1, EvSubmit jobA None); (2, EvFetch 9%positive)]
           [(3, EvPush doneA); (4, EvStat idA 5%positive)] eq_refl).
Defined.

(** C5 as it is stated fails: after Submit and Fetch the Status observed
    for the Id is Running; a Push of a job value with that Id whose Status
    is Queued is stored as it is, and the Status observed next is Queued. *)
Lemma Push_of_a_Queued_job_regresses_Status :
  exists s1 out1 s2 out2,
    run (exec byte_size)
      [(1, EvSubmit jobA None); (2, EvFetch 9%positive)] NewServer
    = Some (s1, out1)
    /\ run (exec byte_size) [(3, EvPush jobA)] s1 = Some (s2, out2)
    /\ observed s1 idA = Some StatusRunning
    /\ observed s2 idA = Some StatusQueued
    /\ (rank StatusQueued < rank StatusRunning)%nat.
Proof.
  eexists _, _, _, _.
  split; [vm_compute; reflexivity|].
  split; [vm_compute; reflexivity|].
  split; [vm_compute; reflexivity|].
  split; [vm_compute; reflexivity|].
  cbn. lia.
Qed.

Lemma retrieve_replies_example :
  (exists s' hdr,
     retrieve byte_size status_text no_faults
       "/job/retrieve/01010101010101010101010101010101" 5%positive 0
       cachedDoneA
     = Some (s', HttpArchive hdr [{| Name := "out.txt"; Data := [52; 50] |}]))
  /\ (exists s',
        retrieve byte_size status_text no_faults
          "/job/retrieve/01010101010101010101010101010101" 5%positive 0
          queuedA
        = Some (s', HttpError 400
                      "job 01010101010101010101010101010101 status: queued")).
Proof.
  split.
  - destruct (retrieve_replies byte_size status_text no_faults
                "/job/retrieve/01010101010101010101010101010101"
                "01010101010101010101010101010101" 5%positive 0 cachedDoneA
                ltac:(vm_compute; reflexivity)) as [H _].
    destruct (H idA ltac:(vm_compute; reflexivity)) as [_ H2].
    destruct (H2 1%positive doneA ltac:(vm_compute; reflexivity)
                ltac:(vm_compute; reflexivity)) as [_ H3].
    exact (H3 eq_refl (fun _ _ => conj eq_refl eq_refl) eq_refl eq_refl).
  - destruct (retrieve_replies byte_size status_text no_faults
                "/job/retrieve/01010101010101010101010101010101"
                "01010101010101010101010101010101" 5%positive 0 queuedA
                ltac:(vm_compute; reflexivity)) as [H _].
    destruct (H idA ltac:(vm_compute; reflexivity)) as [_ H2].
    destruct (H2 1%positive jobA ltac:(vm_compute; reflexivity)
                ltac:(vm_compute; reflexivity)) as [H3 _].
    apply H3. discriminate.
Defined.

Lemma malformed_submit_changes_nothing_example :
  exists s',
    submit byte_size decode_nonempty (Ok []) jobA 1 queuedA
    = Some (s', HttpError 400 "unexpected end of JSON input")
    /\ queue s' = queue queuedA
    /\ alljobs s' = alljobs queuedA
    /\ submitchans s' = submitchans queuedA
    /\ store s' = store queuedA.
Proof.
  apply (malformed_submit_changes_nothing byte_size decode_nonempty
           (Ok []) jobA 1 queuedA "unexpected end of JSON input").
  right. exists []. split; reflexivity.
Defined.

Lemma convid_accepts_even_hex_of_any_length_example :
  convid "ab" = Some [171; 0; 0; 0; 0; 0; 0; 0; 0; 0; 0; 0; 0; 0; 0; 0]
  /\ (exists s',
        getjob byte_size "ab" 5%positive 0 queuedA
        = Some (s', Err "unknown job id ab"))
  /\ (exists s',
        getjob byte_size "abc" 5%positive 0 queuedA
        = Some (s', Err "malformed job id abc")).
Proof.
  destruct (convid_accepts_even_hex_of_any_length byte_size) as [H1 H2].
  destruct (H1 "ab" eq_refl eq_refl) as (uid & Hd & _ & Hc & _ & Hg).
  vm_compute in Hd. injection Hd as <-.
  split; [exact Hc|]. split.
  - exact (Hg 5%positive 0 queuedA).
  - apply (H2 "abc" 5%positive 0 queuedA). reflexivity.
Defined.

(** C9 as it is stated fails: a well-formed hex string of the wrong length
    is not always answered with "unknown job id".  The 34 characters made
    of the text of a cached Id and two more hex digits are cut to that Id,
    and getjob returns the cached job. *)
Lemma getjob_finds_a_job_under_a_longer_id :
  all_hex "01010101010101010101010101010101ff" = true
  /\ Nat.even (String.length "01010101010101010101010101010101ff") = true
  /\ String.length "01010101010101010101010101010101ff" = 34%nat
  /\ (exists s',
        getjob byte_size "01010101010101010101010101010101ff" 5%positive 0
          cachedDoneA
        = Some (s', Ok 1%positive))
  /\ (forall s',
        getjob byte_size "01010101010101010101010101010101ff" 5%positive 0
          cachedDoneA
        <> Some (s', Err ("unknown job id "
                            +:+ "01010101010101010101010101010101ff"))).
Proof.
  assert (Hc : convid "01010101010101010101010101010101ff" = Some idA)
    by (vm_compute; reflexivity).
  do 3 (split; [reflexivity|]).
  rewrite (getjob_decoded _ _ _ _ _ _ Hc).
  replace (lru_peek (alljobs cachedDoneA) idA) with (Some 1%positive)
    by (vm_compute; reflexivity).
  split; [eauto|]. intros s' [=].
Qed.

Lemma insert_by_perm {A : Type} (lt : A -> A -> bool) (a : A) (l : list A) :
  Permutation (insert_by lt a l) (a :: l).
Proof.
  induction l as [|b l IH]; cbn; [reflexivity|].
  destruct (lt a b); [reflexivity|].
  rewrite IH. apply perm_swap.
Qed.

Lemma insertion_sort_perm {A : Type} (lt : A -> A -> bool) (l : list A) :
  Permutation (insertion_sort lt l) l.
Proof.
  induction l as [|a l IH]; cbn; [reflexivity|].
  rewrite insert_by_perm. now rewrite IH.
Qed.

Lemma interpolate_total_from_two_samples_example :
  (forall x, interpolateQ [pt 3 4] x = None)
  /\ (forall x, exists y, interpolateQ [pt 10 100; pt 0 0] x = Some y).
Proof.
  split.
  - apply (interpolate_total_from_two_samples Q Qle_bool Qplus Qminus Qmult
             Qdiv (insertion_sort (Less Q Qlt_bool)) [pt 3 4]
             (insertion_sort_perm _)).
    cbn. lia.
  - apply (interpolate_total_from_two_samples Q Qle_bool Qplus Qminus Qmult
             Qdiv (insertion_sort (Less Q Qlt_bool)) [pt 10 100; pt 0 0]
             (insertion_sort_perm _)).
    cbn. lia.
Defined.

(** *** The definitions on the scenarios of the specification *)

Example interpolateQ_between :
  Qred <$> interpolateQ [pt 10 100; pt 0 0; pt 20 0] (inject_Z 5)
  = Some (inject_Z 50).
Proof. vm_compute. reflexivity. Qed.

Example interpolateQ_beyond :
  Qred <$> interpolateQ [pt 10 100; pt 0 0; pt 20 0] (inject_Z 30)
  = Some (inject_Z (-100)).
Proof. vm_compute. reflexivity. Qed.

Example interpolateQ_no_sample : interpolateQ [] (inject_Z 30) = None.
Proof. reflexivity. Qed.

(** Submit A, submit B; the first Fetch returns A, which Stat then shows
    Running while B is Queued; Push of the finished A; Retrieve of A
    returns the archive with out.txt; the second Fetch returns B and the
    third finds no job. *)
Example submit_fetch_push_retrieve :
  ('(s1, _) ← run (exec byte_size)
                (submits [(1, (jobA, None)); (2, (jobB, None))]) NewServer;
   '(s2, r1) ← RPC_Fetch byte_size idB 9%positive 3 s1;
   '(s3, _) ← exec byte_size 4 (EvPush doneA) s2;
   '(s4, reply) ← retrieve byte_size status_text no_faults
                    "/job/retrieve/01010101010101010101010101010101"
                    5%positive 5 s3;
   '(s5, r2) ← RPC_Fetch byte_size idB 9%positive 6 s4;
   '(s6, r3) ← RPC_Fetch byte_size idB 9%positive 7 s5;
   Some (r1, observed s2 idA, observed s2 idB, reply, r2, r3))
  = Some (Ok 1%positive, Some StatusRunning, Some StatusQueued,
          HttpArchive
            [("Content-Disposition",
              "filename=" +:+ dquote
                +:+ "results-id-01010101010101010101010101010101.tar"
                +:+ dquote)]
            [{| Name := "out.txt"; Data := [52; 50] |}],
          Ok 2%positive, Err "no jobs available to run").
Proof. vm_compute. reflexivity. Qed.

(** The two other ways an observed Status goes back: a second Submit of
    the Id after its Fetch, and a Submit of the Id after its Push. *)
Example resubmitted_Id_goes_back_to_Queued :
  exists s1 out1 s2 out2,
    run (exec byte_size)
      [(1, EvSubmit jobA None); (2, EvFetch 9%positive)] NewServer
    = Some (s1, out1)
    /\ run (exec byte_size) [(3, EvSubmit jobA None)] s1 = Some (s2, out2)
    /\ observed s1 idA = Some StatusRunning
    /\ observed s2 idA = Some StatusQueued.
Proof.
  eexists _, _, _, _. repeat split; vm_compute; reflexivity.
Qed.

Example Submit_after_Push_goes_back_to_Queued :
  exists s1 out1 s2 out2,
    run (exec byte_size) [(1, EvPush doneA)] NewServer = Some (s1, out1)
    /\ run (exec byte_size) [(2, EvSubmit jobA None)] s1 = Some (s2, out2)
    /\ observed s1 idA = Some StatusComplete
    /\ observed s2 idA = Some StatusQueued.
Proof.
  eexists _, _, _, _. repeat split; vm_compute; reflexivity.
Qed.

End Examples.

(** ** Hexadecimal text: encoding and decoding *)

Section HexRoundTrip.

Import hex cloudlus.

Lemma fromHexChar_hexdigit (n : Z) :
  0 <= n < 16 -> fromHexChar (hexdigit n) = Some n.
Proof.
  intros H.
  destruct (Z_of_nat_complete n ltac:(lia)) as [k ->].
  assert (Hk : (k < 16)%nat) by lia. clear H.
  do 16 (destruct k as [|k]; [reflexivity|]). lia.
Qed.

Lemma byte_nibbles (b : Z) :
  0 <= b < 256 ->
  0 <= Z.shiftr b 4 < 16 /\ 0 <= Z.land b 15 < 16
  /\ Z.lor (Z.shiftl (Z.shiftr b 4) 4) (Z.land b 15) = b.
Proof.
  intros H.
  rewrite Z.shiftr_div_pow2, Z.shiftl_mul_pow2 by lia.
  change 15 with (Z.ones 4). rewrite Z.land_ones by lia.
  change (2 ^ 4) with 16.
  split; [split; [apply Z.div_pos; lia|apply Z.div_lt_upper_bound; lia]|].
  split; [apply Z.mod_pos_bound; lia|].
  rewrite <- Z.add_nocarry_lor.
  - rewrite Z.mul_comm. symmetry. apply Z.div_mod. lia.
  - apply Z.bits_inj'. intros i Hi. rewrite Z.land_spec, Z.bits_0.
    destruct (Z.lt_ge_cases i 4) as [Hlt|Hge].
    + change 16 with (2 ^ 4). rewrite Z.mul_pow2_bits_low by lia. reflexivity.
    + change 16 with (2 ^ 4). rewrite (Z.mod_pow2_bits_high b 4 i) by lia.
      apply andb_false_r.
Qed.

Lemma Decode_Encode (bs : list Z) :
  Forall (fun b => 0 <= b < 256) bs ->
  Decode (list_ascii_of_string (EncodeToString bs)) = Some bs.
Proof.
  induction 1 as [|b bs Hb _ IH]; [reflexivity|].
  cbn [EncodeToString list_ascii_of_string Decode].
  destruct (byte_nibbles b Hb) as (Hhi & Hlo & Heq).
  rewrite (fromHexChar_hexdigit _ Hhi), (fromHexChar_hexdigit _ Hlo), IH, Heq.
  reflexivity.
Qed.

Lemma list_ascii_app (a b : string) :
  list_ascii_of_string (a +:+ b)
  = list_ascii_of_string a ++ list_ascii_of_string b.
Proof. induction a as [|c a IH]; simpl; [reflexivity|]. now f_equal. Qed.

Lemma Decode_app (l1 l2 : list ascii) (b1 : list Z) :
  Decode l1 = Some b1 ->
  Decode (l1 ++ l2) = match Decode l2 with
                      | Some b2 => Some (b1 ++ b2)
                      | None => None
                      end.
Proof.
  revert b1.
  assert (H : (forall b1, Decode l1 = Some b1 ->
               Decode (l1 ++ l2) = match Decode l2 with
                                   | Some b2 => Some (b1 ++ b2)
                                   | None => None
                                   end)
              /\ (forall a b1, Decode (a :: l1) = Some b1 ->
                  Decode ((a :: l1) ++ l2) = match Decode l2 with
                                             | Some b2 => Some (b1 ++ b2)
                                             | None => None
                                             end)).
  { induction l1 as [|c l1 [IH1 IH2]].
    - split.
      + intros b1 [= <-]. cbn. now destruct (Decode l2).
      + intros a b1 H. discriminate H.
    - split; [apply IH2|].
      intros a b1 H. cbn [Decode app] in *.
      destruct (fromHexChar a); [|discriminate].
      destruct (fromHexChar c); [|discriminate].
      destruct (Decode l1) as [bs|] eqn:E; [|discriminate].
      injection H as <-. rewrite (IH1 bs eq_refl).
      now destruct (Decode l2). }
  apply H.
Qed.

Lemma copy16_prefix (id more : list Z) :
  List.length id = 16%nat -> copy16 (id ++ more) = id.
Proof.
  intros H. unfold copy16.
  rewrite take_app_length' by (symmetry; exact H).
  rewrite length_app, H. cbn. apply app_nil_r.
Qed.

(** X1: whatever hexadecimal text follows the 32 digits of an Id is ignored:
    the text names the same Id. *)
Theorem convid_ignores_what_follows_an_Id (id : list Z) (more : string) :
  is_Id id -> all_hex more = true -> Nat.even (String.length more) = true ->
  convid (EncodeToString id +:+ more) = Some id.
Proof.
  intros [Hlen Hb] Hh Hev. unfold convid, DecodeString.
  rewrite list_ascii_app, (Decode_app _ _ _ (Decode_Encode id Hb)).
  unfold all_hex in Hh. rewrite <- length_list_ascii in Hev.
  destruct (proj1 (Decode_pairs _) Hh Hev) as (uid & -> & _).
  now rewrite copy16_prefix.
Qed.

Lemma convid_Encode (id : list Z) :
  is_Id id -> convid (EncodeToString id) = Some id.
Proof.
  intros H.
  pose proof (convid_ignores_what_follows_an_Id id "" H eq_refl eq_refl) as E.
  replace (EncodeToString id +:+ "") with (EncodeToString id) in E; [exact E|].
  generalize (EncodeToString id). intros t.
  induction t as [|c t IH]; [reflexivity|].
  change (String c t +:+ "") with (String c (t +:+ "")). now f_equal.
Qed.

Lemma substring_all (r : string) : String.substring 0 (String.length r) r = r.
Proof. induction r as [|c r IH]; simpl; [reflexivity|]. now rewrite IH. Qed.

Lemma length_append (a b : string) :
  String.length (a +:+ b) = (String.length a + String.length b)%nat.
Proof.
  induction a as [|c a IH]; [reflexivity|].
  change (String c a +:+ b) with (String c (a +:+ b)). simpl. now rewrite IH.
Qed.

Lemma slice_from_prefix (pre rest : string) :
  slice_from (String.length pre) (pre +:+ rest) = Some rest.
Proof.
  unfold slice_from. rewrite length_append.
  rewrite (proj2 (Nat.leb_le _ _)) by lia.
  f_equal.
  replace (String.length pre + String.length rest - String.length pre)%nat
    with (String.length rest) by lia.
  induction pre as [|c pre IH].
  - change ("" +:+ rest) with rest. apply substring_all.
  - change (String c pre +:+ rest) with (String c (pre +:+ rest)).
    simpl. exact IH.
Qed.

End HexRoundTrip.

(** ** More about the dispatcher: composed calls *)

Section ServerExtras.

Import hex cloudlus.

Variable Job_Size : Job -> Z.

Lemma has_key_true (k : list Z) (e : entry) :
  has_key k e = true <-> e_key e = k.
Proof. unfold has_key. apply bool_decide_eq_true. Qed.

Lemma has_key_false (k : list Z) (e : entry) :
  has_key k e = false <-> e_key e <> k.
Proof. unfold has_key. apply bool_decide_eq_false. Qed.

Lemma find_without (k k' : list Z) (es : list entry) :
  k' <> k ->
  List.find (has_key k') (without k es) = List.find (has_key k') es.
Proof.
  intros Hne. unfold without. induction es as [|a es IH]; [reflexivity|].
  cbn [List.filter List.find]. destruct (has_key k a) eqn:Ha; cbn [negb].
  - apply has_key_true in Ha.
    rewrite (proj2 (has_key_false k' a)) by congruence. exact IH.
  - cbn [List.find]. destruct (has_key k' a); [reflexivity|exact IH].
Qed.

Lemma find_without_same (k : list Z) (es : list entry) :
  List.find (has_key k) (without k es) = None.
Proof.
  unfold without. induction es as [|a es IH]; [reflexivity|].
  cbn [List.filter]. destruct (has_key k a) eqn:Ha; cbn [negb]; [exact IH|].
  cbn [List.find]. now rewrite Ha.
Qed.

Lemma find_app_last (k : list Z) (es : list entry) (e : entry) :
  List.find (has_key k) (es ++ [e])
  = match List.find (has_key k) es with
    | Some x => Some x
    | None => if has_key k e then Some e else None
    end.
Proof.
  induction es as [|a es IH]; cbn; [reflexivity|].
  destruct (has_key k a); [reflexivity|exact IH].
Qed.

(** A Get leaves what the cache answers for every key as it was. *)
Lemma lru_peek_Get (c : LRUCache) (k k' : list Z) :
  lru_peek (snd (lru_Get c k)) k' = lru_peek c k'.
Proof.
  unfold lru_peek, lru_Get at 2.
  destruct (List.find (has_key k) (entries c)) as [e|] eqn:E; [|reflexivity].
  cbn [snd]. unfold lru_Get. cbn [entries].
  rewrite find_app_last.
  pose proof (find_some _ _ E) as [_ Hk].
  destruct (decide (k' = k)) as [->|Hne].
  - rewrite find_without_same, Hk, E. reflexivity.
  - rewrite (find_without _ _ _ Hne).
    destruct (List.find (has_key k') (entries c)); [reflexivity|].
    apply has_key_true in Hk.
    rewrite (proj2 (has_key_false k' e)) by congruence. reflexivity.
Qed.

(** X8: Stat and Retrieve requests are answered with the cached pointer and
    change neither the queue, the waiters, the job objects, nor the Status
    a later request observes for any Id; the two request kinds are
    handled alike. *)
Theorem Stat_and_Retrieve_only_read (now : Z) (id : list Z) (r : chan)
    (s : Server) :
  exists s',
    exec Job_Size now (EvStat id r) s
    = Some (s', [Send r (lru_peek (alljobs s) id)])
    /\ exec Job_Size now (EvRetrieve id r) s
       = Some (s', [Send r (lru_peek (alljobs s) id)])
    /\ queue s' = queue s
    /\ submitchans s' = submitchans s
    /\ store s' = store s
    /\ forall id', observed s' id' = observed s id'.
Proof.
  rewrite exec_Stat, exec_Retrieve. eexists. split; [reflexivity|].
  split; [reflexivity|]. cbn. do 3 (split; [reflexivity|]).
  intros id'. unfold observed. cbn. now rewrite lru_peek_Get.
Qed.

Section Replies.

Variable fmt_Status : JobStatus -> string.
Variable json_Marshal : Job -> result string.

(** X2: a job pushed as Complete can be retrieved under the text of its Id,
    whether or not it was ever submitted: as long as it fits the cache and
    no Create, Write, Close or Copy reports an error, the zip loop writes
    each of its Outfiles into the buffer and the reply is that archive. *)
Theorem pushed_Complete_job_is_retrieved (io : iofaults) (job : Job)
    (ch : chan) (now now' : Z) (s : Server) :
  is_Id (Id job) -> Status job = StatusComplete ->
  Job_Size job <= capacity (alljobs s) ->
  (forall fd, In fd (Outfiles job) ->
     zip_Create io (Name fd) = None /\ zip_Write io (Data fd) = None) ->
  zip_Close io = None -> io_Copy io = None ->
  exists s1 out s2 hdr,
    exec Job_Size now (EvPush job) s = Some (s1, out)
    /\ retrieve Job_Size fmt_Status io
         ("/job/retrieve/" +:+ EncodeToString (Id job)) ch now' s1
       = Some (s2, HttpArchive hdr (Outfiles job)).
Proof.
  intros Hid Hst Hsz Hz Hcl Hcp. rewrite exec_Push.
  eexists _, _, _, _. split; [reflexivity|].
  erewrite retrieve_decoded;
    [|apply slice_from_prefix|apply convid_Encode; exact Hid].
  cbn [alljobs store]. rewrite lru_peek_Set by exact Hsz.
  rewrite lookup_insert_eq. cbn [mbind option_bind].
  rewrite bool_decide_eq_false_2 by (intros H; now apply H).
  rewrite (proj2 (zip_all_Ok io _ NewWriter _) (conj eq_refl Hz)).
  rewrite Hcl, Hcp. reflexivity.
Qed.

(** X3: the text submitInfile replies with names the job it queued: a status
    request for that text marshals a Job holding just that Id and the
    Status Queued (as long as the job fits the cache). *)
Theorem submitInfile_reply_names_the_job (data : list Z) (newjob : Job)
    (w : option string) (ch : chan) (now now' : Z) (s : Server) :
  is_Id (Id newjob) ->
  Job_Size (submitted now newjob) <= capacity (alljobs s) ->
  exists s1 body s2,
    submitInfile Job_Size (Ok data) newjob now s
    = Some (s1, HttpText [("Access-Control-Allow-Origin", "*")] body)
    /\ status Job_Size json_Marshal w ("/job/status/" +:+ body) ch now' s1
       = Some (s2,
               match json_Marshal {| Id := Id newjob; Status := StatusQueued;
                                     Submitted := 0; Payload := [];
                                     Outfiles := [] |} with
               | Err e => HttpError 500 e
               | Ok d =>
                   match w with
                   | Some e => HttpError 500 e
                   | None => HttpText [] d
                   end
               end).
Proof.
  intros Hid Hsz. unfold submitInfile, alloc.
  erewrite dispatcher_Submit by (cbn; apply lookup_insert_eq).
  cbn [mbind option_bind]. eexists _, _, _. split; [reflexivity|].
  unfold status. rewrite slice_from_prefix. cbn [mbind option_bind].
  rewrite (getjob_decoded _ _ _ _ _ _ (convid_Encode _ Hid)).
  cbn [mbind option_bind alljobs store queue submitchans].
  rewrite lru_peek_Set by exact Hsz.
  rewrite lookup_insert_eq. cbn [mbind option_bind Id Status submitted
    set_Submitted set_Status].
  destruct (json_Marshal _); [destruct w|]; reflexivity.
Qed.


End Replies.

(** X4: the queue and the cache share the job object: once a worker has
    fetched a submitted job, a Stat of its Id shows Running, without any
    further write to the cache. *)
Theorem fetched_job_is_observed_Running (job : Job) (r : option chan)
    (wid : list Z) (ch : chan) (now now' : Z) (s : Server) :
  queue s = [] ->
  Job_Size (submitted now job) <= capacity (alljobs s) ->
  exists s1 s2 p,
    exec Job_Size now (EvSubmit job r) s = Some (s1, [])
    /\ observed s1 (Id job) = Some StatusQueued
    /\ RPC_Fetch Job_Size wid ch now' s1 = Some (s2, Ok p)
    /\ alljobs s2 = alljobs s1
    /\ observed s2 (Id job) = Some StatusRunning.
Proof.
  intros Hq Hsz. rewrite exec_Submit, Hq. eexists _, _, _.
  split; [reflexivity|]. split.
  - unfold observed. cbn [alljobs store].
    rewrite lru_peek_Set by exact Hsz. cbn [mbind option_bind].
    rewrite lookup_insert_eq. reflexivity.
  - rewrite RPC_Fetch_eq. cbn [queue app store]. rewrite lookup_insert_eq.
    cbn [mbind option_bind]. split; [reflexivity|]. split; [reflexivity|].
    unfold observed. cbn [alljobs store].
    rewrite lru_peek_Set by exact Hsz. cbn [mbind option_bind].
    rewrite lookup_insert_eq. reflexivity.
Qed.

(** X5: the registry holds one waiter per Id: a second synchronous Submit
    with the same Id replaces the channel of the first, and the Push that
    follows sends the job on the second channel only and leaves no
    registration, so nothing is sent to the first caller. *)
Theorem second_waiter_replaces_first (job1 job2 job3 : Job) (ch1 ch2 : chan)
    (now1 now2 now3 : Z) (s : Server) :
  Id job2 = Id job1 -> Id job3 = Id job1 -> ch1 <> ch2 ->
  exists s1 s2 s3 j3,
    exec Job_Size now1 (EvSubmit job1 (Some ch1)) s = Some (s1, [])
    /\ submitchans s1 !! Id job1 = Some ch1
    /\ exec Job_Size now2 (EvSubmit job2 (Some ch2)) s1 = Some (s2, [])
    /\ submitchans s2 !! Id job1 = Some ch2
    /\ exec Job_Size now3 (EvPush job3) s2 = Some (s3, [Send ch2 (Some j3)])
    /\ recv ch1 [Send ch2 (Some j3)] = None
    /\ submitchans s3 !! Id job1 = None.
Proof.
  intros H2 H3 Hne. rewrite exec_Submit. eexists _, _, _, _.
  split; [reflexivity|]. cbn [submitchans].
  split; [apply lookup_insert_eq|].
  rewrite exec_Submit, H2. split; [reflexivity|]. cbn [submitchans].
  split; [apply lookup_insert_eq|].
  rewrite exec_Push, H3. cbn [submitchans]. rewrite lookup_insert_eq.
  split; [reflexivity|]. split.
  - cbn. destruct (decide (ch2 = ch1)); [congruence|reflexivity].
  - apply lookup_delete_eq.
Qed.

(** *** The order in which jobs reach the workers *)

Lemma handed_queue (es : list (Z * event)) :
  forall (s s' : Server) (subs fets : list loc),
    handed Job_Size es s = Some (s', subs, fets) ->
    queue s ++ subs = fets ++ queue s'.
Proof.
  induction es as [|[now e] es IH]; intros s s' subs fets H.
  - injection H as <- <- <-. now rewrite app_nil_r.
  - cbn [handed] in H.
    destruct (exec Job_Size now e s) as [[s1 out]|] eqn:He; [|discriminate].
    cbn [mbind option_bind] in H.
    destruct (handed Job_Size es s1) as [[[s2 subs'] fets']|] eqn:Hh;
      [|discriminate].
    cbn [mbind option_bind] in H. injection H as <- <- <-.
    apply IH in Hh. destruct e as [job r|k r|k r|job|r].
    + rewrite exec_Submit in He. injection He as <- _. cbn in Hh |- *.
      now rewrite <- app_assoc in Hh.
    + rewrite exec_Retrieve in He. now injection He as <- _.
    + rewrite exec_Stat in He. now injection He as <- _.
    + rewrite exec_Push in He. now injection He as <- _.
    + cbn in He. destruct (queue s) as [|j q] eqn:Eq.
      * injection He as <- <-. rewrite recv_own. now rewrite Eq in Hh.
      * destruct (store s !! j); [|discriminate]. cbn in He.
        injection He as <- <-. rewrite recv_own. cbn in Hh |- *.
        now rewrite Hh.
Qed.

Lemma handed_runs (es : list (Z * event)) :
  forall s : Server, queue_allocated s ->
  exists s' subs fets, handed Job_Size es s = Some (s', subs, fets).
Proof.
  induction es as [|[now e] es IH]; intros s Hq; [cbn; eauto|].
  destruct (exec_allocated Job_Size now e s Hq) as (s1 & out & He & Hq1).
  destruct (IH s1 Hq1) as (s' & subs & fets & Hh).
  cbn [handed]. rewrite He. cbn. rewrite Hh. cbn. eauto.
Qed.

(** X6: jobs reach the workers first in, first out, whatever else happens in
    between: over any sequence of calls on a new server, the jobs the
    Fetch calls received, followed by the jobs still queued, are the jobs
    submitted, in the order of their submission. *)
Theorem jobs_are_fetched_in_submission_order (es : list (Z * event)) :
  exists s subs fets,
    handed Job_Size es NewServer = Some (s, subs, fets)
    /\ subs = fets ++ queue s.
Proof.
  destruct (handed_runs es NewServer) as (s & subs & fets & H);
    [intros j []|].
  exists s, subs, fets. split; [exact H|].
  apply handed_queue in H. exact H.
Qed.

Lemma handed_fresh (es : list (Z * event)) :
  forall (s s' : Server) (subs fets : list loc),
    queue_allocated s -> NoDup (queue s) ->
    handed Job_Size es s = Some (s', subs, fets) ->
    NoDup (queue s ++ subs) /\ forall p, In p subs -> store s !! p = None.
Proof.
  induction es as [|[now e] es IH]; intros s s' subs fets Hq Hnd H.
  - injection H as <- <- <-. rewrite app_nil_r. split; [exact Hnd|intros p []].
  - cbn [handed] in H.
    destruct (exec_allocated Job_Size now e s Hq) as (s1 & out & He & Hq1).
    rewrite He in H. cbn [mbind option_bind] in H.
    destruct (handed Job_Size es s1) as [[[s2 subs'] fets']|] eqn:Hh;
      [|discriminate].
    cbn [mbind option_bind] in H. injection H as <- <- <-.
    destruct e as [job r|k r|k r|job|r].
    + rewrite exec_Submit in He. injection He as <- _.
      assert (Hnd1 : NoDup (queue s ++ [fresh (dom (store s))])).
      { apply NoDup_app. split; [exact Hnd|]. split; [|apply NoDup_singleton].
        intros x Hx Hx'. apply list_elem_of_In in Hx, Hx'.
        destruct Hx' as [Hx'|[]]. subst x.
        now apply (fresh_not_queued s Hq). }
      destruct (IH _ _ _ _ Hq1 Hnd1 Hh) as [Hnd' Hfr]. cbn in Hnd', Hfr.
      split.
      * cbn. now rewrite <- app_assoc in Hnd'.
      * cbn. intros p [<-|Hp]; [apply fresh_store|].
        specialize (Hfr p Hp). apply lookup_insert_None in Hfr. tauto.
    + rewrite exec_Retrieve in He. injection He as <- _.
      exact (IH _ _ _ _ Hq1 Hnd Hh).
    + rewrite exec_Stat in He. injection He as <- _.
      exact (IH _ _ _ _ Hq1 Hnd Hh).
    + rewrite exec_Push in He. injection He as <- _.
      destruct (IH _ _ _ _ Hq1 Hnd Hh) as [Hnd' Hfr]. cbn in Hnd', Hfr.
      split; [exact Hnd'|]. intros p Hp.
      specialize (Hfr p Hp). apply lookup_insert_None in Hfr. tauto.
    + cbn in He. destruct (queue s) as [|j q] eqn:Eq.
      * injection He as <- _. rewrite <- Eq in Hnd |- *.
        exact (IH s _ _ _ Hq Hnd Hh).
      * destruct (store s !! j) as [jb|] eqn:Hj; [|discriminate]. cbn in He.
        injection He as <- _.
        apply NoDup_cons in Hnd as [Hjq Hndq].
        destruct (IH _ _ _ _ Hq1 Hndq Hh) as [Hnd' Hfr]. cbn in Hnd', Hfr.
        assert (Hfr' : forall p, In p subs' -> store s !! p = None).
        { intros p Hp. specialize (Hfr p Hp).
          apply lookup_insert_None in Hfr. tauto. }
        split; [|exact Hfr']. cbn. apply NoDup_cons. split; [|exact Hnd'].
        intros Hin%list_elem_of_In. apply in_app_or in Hin as [Hin|Hin].
        -- apply Hjq, list_elem_of_In, Hin.
        -- apply Hfr' in Hin. congruence.
Qed.

(** X7: no job is handed to two Fetch calls, and a job that was fetched is no
    longer queued. *)
Theorem no_job_is_fetched_twice (es : list (Z * event)) (s : Server)
    (subs fets : list loc) :
  handed Job_Size es NewServer = Some (s, subs, fets) ->
  NoDup fets /\ forall j, In j fets -> ~ In j (queue s).
Proof.
  intros H.
  destruct (handed_fresh es NewServer s subs fets) as [Hnd _];
    [intros j []|constructor|exact H|].
  apply handed_queue in H. cbn in H, Hnd. rewrite H in Hnd.
  apply NoDup_app in Hnd as (Hf & Hdis & _). split; [exact Hf|].
  intros j Hj Hq. apply (Hdis j); now apply list_elem_of_In.
Qed.

End ServerExtras.

(** ** Properties of the scenario arithmetic *)

Section IntFacts.

Import scen.

Lemma wrap_id (z : Z) : - 2 ^ 63 <= z < 2 ^ 63 -> wrap z = z.
Proof.
  intros H. unfold wrap. rewrite Z.mod_small by lia. lia.
Qed.

Lemma wrap_range (z : Z) : - 2 ^ 63 <= wrap z < 2 ^ 63.
Proof.
  unfold wrap. pose proof (Z.mod_pos_bound (z + 2 ^ 63) (2 ^ 64)). lia.
Qed.

Lemma exists_newline (bs : list Z) :
  existsb (fun c => c =? 10) bs = negb (Nat.eqb (newlines bs) 0).
Proof.
  unfold newlines. induction bs as [|b bs IH]; [reflexivity|].
  cbn [existsb List.filter]. destruct (b =? 10); [reflexivity|exact IH].
Qed.

Lemma findLine_from_counts (n : nat) :
  forall (data : list Z) (line col : Z),
    (n <= List.length data)%nat ->
    0 <= line -> 0 <= col ->
    line + Z.of_nat n < 2 ^ 63 -> col + Z.of_nat n < 2 ^ 63 ->
    findLine_from data n line col
    = Some (line + Z.of_nat (newlines (take n data)),
            if Nat.eqb (newlines (take n data)) 0 then col + Z.of_nat n
            else 1 + Z.of_nat (after_last_newline (take n data))).
Proof.
  induction n as [|n IH]; intros data line col Hn Hl Hc Hlb Hcb.
  - rewrite take_0. cbn. f_equal. f_equal; lia.
  - destruct data as [|b rest]; [cbn in Hn; lia|].
    cbn [findLine_from take]. cbn in Hn.
    assert (Hlen : List.length (take n rest) = n) by (rewrite length_take; lia).
    destruct (b =? 10) eqn:Eb.
    + unfold iadd. rewrite wrap_id by lia.
      rewrite IH by lia.
      unfold newlines at 3 4. cbn [List.filter]. rewrite Eb.
      cbn [List.length Nat.eqb after_last_newline].
      fold (newlines (take n rest)).
      rewrite exists_newline, Eb.
      f_equal. f_equal; [lia|].
      destruct (Nat.eqb (newlines (take n rest)) 0); cbn [negb]; lia.
    + unfold iadd. rewrite wrap_id by lia.
      rewrite IH by lia.
      unfold newlines at 3 4. cbn [List.filter]. rewrite Eb.
      fold (newlines (take n rest)).
      cbn [after_last_newline]. rewrite exists_newline, Eb.
      f_equal. f_equal.
      destruct (Nat.eqb (newlines (take n rest)) 0); cbn [negb]; lia.
Qed.

Lemma findLine_from_short (n : nat) :
  forall (data : list Z) (line col : Z),
    (List.length data < n)%nat -> findLine_from data n line col = None.
Proof.
  induction n as [|n IH]; intros data line col Hn; [lia|].
  destruct data as [|b rest]; [reflexivity|].
  cbn [findLine_from]. cbn in Hn.
  destruct (b =? 10); apply IH; lia.
Qed.

(** X9: findLine panics exactly when pos lies beyond the data.  Otherwise the
    line is one more than the number of line feeds among the first pos
    bytes; the column is the number of those bytes on the first line, and
    one more than the number of bytes after the last line feed on every
    later line. *)
Theorem findLine_line_and_column (data : list Z) (pos : Z) :
  ilen data < 2 ^ 62 ->
  (ilen data < pos -> findLine data pos = None)
  /\ (pos <= ilen data ->
      findLine data pos
      = Some (1 + Z.of_nat (newlines (take (Z.to_nat pos) data)),
              if Nat.eqb (newlines (take (Z.to_nat pos) data)) 0
              then Z.of_nat (Z.to_nat pos)
              else 1 + Z.of_nat (after_last_newline
                                   (take (Z.to_nat pos) data)))).
Proof.
  unfold ilen, findLine. intros Hlen. split.
  - intros H. apply findLine_from_short. lia.
  - intros H. rewrite findLine_from_counts by lia. reflexivity.
Qed.

End IntFacts.

Section ScenarioFacts.

Import scen.

Variable F : Type.

Lemma small_wrap (z : Z) : - 2 ^ 62 <= z < 2 ^ 62 -> wrap z = z.
Proof. intros H. apply wrap_id. lia. Qed.

Lemma quot_bound (a b : Z) : 0 < b -> - Z.abs a <= Z.quot a b <= Z.abs a.
Proof.
  intros Hb. destruct (Z.le_gt_cases 0 a) as [Ha|Ha].
  - rewrite Z.quot_div_nonneg by lia.
    pose proof (Z.div_pos a b Ha Hb).
    assert (a / b <= a) by (apply Z.div_le_upper_bound; nia). lia.
  - replace a with (- (- a)) at 2 3 by lia.
    rewrite Z.quot_opp_l by lia.
    rewrite Z.quot_div_nonneg by lia.
    pose proof (Z.div_pos (- a) b ltac:(lia) Hb).
    assert (- a / b <= - a) by (apply Z.div_le_upper_bound; nia). lia.
Qed.

Lemma nperiods_eq (s : Scenario F) :
  small (SimDur s) -> small (BuildOffset s) -> small (TrailingDur s) ->
  0 < BuildPeriod s ->
  nperiods s
  = Some (Z.quot (SimDur s - BuildOffset s - TrailingDur s - 2)
            (BuildPeriod s) + 1).
Proof.
  unfold small, nperiods, idiv, isub, iadd. intros Hd Ho Ht Hp.
  rewrite (proj2 (Z.eqb_neq _ _)) by lia. cbn [mbind option_bind].
  rewrite (small_wrap (SimDur s - BuildOffset s)) by lia.
  rewrite (small_wrap (SimDur s - BuildOffset s - TrailingDur s)) by lia.
  rewrite (small_wrap (SimDur s - BuildOffset s - TrailingDur s - 2)) by lia.
  pose proof (quot_bound (SimDur s - BuildOffset s - TrailingDur s - 2)
                (BuildPeriod s) Hp) as Hq.
  rewrite (small_wrap (Z.quot _ _)) by lia.
  rewrite small_wrap by lia. reflexivity.
Qed.

Lemma timeOf_eq (s : Scenario F) (p : Z) :
  small (BuildOffset s) -> small (BuildPeriod s) -> small p ->
  timeOf s p = p * BuildPeriod s + 1 + BuildOffset s.
Proof.
  unfold small, timeOf, iadd, imul. intros Ho Hb Hp.
  assert (0 <= p * BuildPeriod s < 2 ^ 60).
  { split; [nia|]. change (2 ^ 60) with (2 ^ 30 * 2 ^ 30). nia. }
  rewrite (small_wrap (p * BuildPeriod s)) by lia.
  rewrite (small_wrap (p * BuildPeriod s + 1)) by lia.
  apply small_wrap. lia.
Qed.

(** X10: periodOf undoes timeOf, and every time step of a build period belongs
    to that period: for 0 <= k < BuildPeriod, periodOf(timeOf(p) + k) is
    p. *)
Theorem periodOf_timeOf (s : Scenario F) (p k : Z) :
  small (BuildOffset s) -> small (BuildPeriod s) -> small p ->
  0 <= k < BuildPeriod s ->
  periodOf s (timeOf s p + k) = Some p.
Proof.
  intros Ho Hb Hp Hk. rewrite timeOf_eq by assumption.
  unfold small in *. unfold periodOf, idiv, isub.
  rewrite (proj2 (Z.eqb_neq _ _)) by lia.
  assert (0 <= p * BuildPeriod s < 2 ^ 60).
  { split; [nia|]. change (2 ^ 60) with (2 ^ 30 * 2 ^ 30). nia. }
  rewrite (small_wrap (_ - BuildOffset s)) by lia.
  rewrite (small_wrap (_ - 1)) by lia.
  replace (p * BuildPeriod s + 1 + BuildOffset s + k - BuildOffset s - 1)
    with (k + p * BuildPeriod s) by lia.
  rewrite Z.quot_div_nonneg by lia.
  rewrite Z.div_add by lia. rewrite Z.div_small by lia.
  rewrite small_wrap by lia. reflexivity.
Qed.

(** X11: with a positive BuildPeriod and room for at least one build, the
    build times start right after BuildOffset, lie BuildPeriod apart and
    all fall before the trailing TrailingDur time steps of the
    simulation. *)
Theorem periodTimes_fit_the_window (s : Scenario F) :
  small (SimDur s) -> small (BuildOffset s) -> small (TrailingDur s) ->
  small (BuildPeriod s) -> 0 < BuildPeriod s ->
  BuildOffset s + TrailingDur s + 2 <= SimDur s ->
  exists np ts,
    nperiods s = Some np /\ 1 <= np
    /\ periodTimes s = Some ts
    /\ ilen ts = np
    /\ forall i t, ts !! i = Some t ->
         t = BuildOffset s + 1 + Z.of_nat i * BuildPeriod s
         /\ BuildOffset s + 1 <= t <= SimDur s - TrailingDur s - 1.
Proof.
  intros Hd Ho Ht Hb Hp Hw.
  pose proof (nperiods_eq s Hd Ho Ht Hp) as Hnp.
  set (w := SimDur s - BuildOffset s - TrailingDur s - 2) in *.
  assert (Hw0 : 0 <= w) by (unfold w; lia).
  rewrite Z.quot_div_nonneg in Hnp by lia.
  pose proof (Z.div_pos w (BuildPeriod s) Hw0 Hp) as Hq.
  exists (w / BuildPeriod s + 1), 
    (map (fun i => timeOf s (Z.of_nat i))
       (seq 0 (Z.to_nat (w / BuildPeriod s + 1)))).
  split; [exact Hnp|]. split; [lia|].
  unfold periodTimes. rewrite Hnp. cbn [mbind option_bind].
  rewrite (proj2 (Z.ltb_ge _ _)) by lia.
  split; [reflexivity|].
  split; [unfold ilen; rewrite length_map, length_seq; lia|].
  intros i t Hi. rewrite list_lookup_fmap in Hi.
  destruct (seq 0 _ !! i) as [j|] eqn:Ej; [|discriminate].
  apply lookup_seq in Ej as [-> Hlt]. cbn in Hi. injection Hi as <-.
  assert (Hile : Z.of_nat i <= w / BuildPeriod s) by lia.
  assert (Hmul : Z.of_nat i * BuildPeriod s <= w).
  { pose proof (Z.mul_div_le w (BuildPeriod s) Hp). nia. }
  unfold small in *.
  rewrite timeOf_eq by (unfold small; lia || (split; [lia|]; nia)).
  split; [lia|]. unfold w in Hmul. lia.
Qed.

Lemma protos_lookup (facs : list (Facility F)) :
  forall (m : gmap string (Facility F)) (k : string),
    is_Some (foldl (fun m fac => <[Proto fac := fac]> m) m facs !! k)
    <-> (exists f, In f facs /\ Proto f = k) \/ is_Some (m !! k).
Proof.
  induction facs as [|a facs IH]; intros m k; cbn [foldl].
  - split; [tauto|]. intros [(f & [] & _)|H]; exact H.
  - rewrite IH. rewrite lookup_insert_is_Some'. split.
    + intros [(f & Hf & Hk)|[Hk|H]].
      * left. exists f. split; [now right|exact Hk].
      * left. exists a. split; [now left|exact Hk].
      * now right.
    + intros [(f & [->|Hf] & Hk)|H].
      * right. now left.
      * left. eauto.
      * right. now right.
Qed.

Lemma Validate_builds_None (protos : gmap string (Facility F))
    (builds : list (Build F)) :
  Validate_builds protos builds = None
  <-> forall b, In b builds -> is_Some (protos !! BuildProto b).
Proof.
  induction builds as [|p rest IH]; cbn [Validate_builds].
  - split; [intros _ b []|reflexivity].
  - destruct (protos !! BuildProto p) as [f|] eqn:E.
    + rewrite IH. split.
      * intros H b [<-|Hb]; [rewrite E; eauto|now apply H].
      * intros H b Hb. apply H. now right.
    + split; [discriminate|]. intros H.
      destruct (H p (or_introl eq_refl)) as [f Hf]. congruence.
Qed.

Lemma nperiods_None (s : Scenario F) :
  nperiods s = None <-> BuildPeriod s = 0.
Proof.
  unfold nperiods, idiv. destruct (Z.eqb_spec (BuildPeriod s) 0) as [E|E];
    cbn; split; intros H; congruence.
Qed.

(** X12: Validate returns nil exactly when MinPower and MaxPower are equally
    long, their length is the number of build periods, and every build
    names a prototype of Facs.  It does not return at all, but panics on
    the division in nperiods, exactly when the two lengths agree and
    BuildPeriod is 0. *)
Theorem Validate_nil_or_panic (s : Scenario F) :
  (Validate s = Some None
   <-> List.length (MinPower s) = List.length (MaxPower s)
       /\ nperiods s = Some (ilen (MinPower s))
       /\ forall b, In b (Builds s) ->
            exists f, In f (Facs s) /\ Proto f = BuildProto b)
  /\ (Validate s = None
      <-> List.length (MinPower s) = List.length (MaxPower s)
          /\ BuildPeriod s = 0).
Proof.
  unfold Validate, ilen.
  destruct (bool_decide_reflect
              (Z.of_nat (List.length (MinPower s))
               <> Z.of_nat (List.length (MaxPower s)))) as [Hne|Heq].
  - split; (split; [discriminate|]); intros [H _]; lia.
  - assert (Hlen : List.length (MinPower s) = List.length (MaxPower s)) by lia.
    destruct (nperiods s) as [np|] eqn:Enp; cbn [mbind option_bind].
    + assert (Hbp : BuildPeriod s <> 0).
      { intros H. apply nperiods_None in H. congruence. }
      destruct (bool_decide_reflect
                  (np <> Z.of_nat (List.length (MinPower s)))) as [Hn|Hn].
      * split; (split; [discriminate|]).
        -- intros (_ & [= H] & _). congruence.
        -- intros [_ H]. congruence.
      * assert (np = Z.of_nat (List.length (MinPower s))) as -> by lia.
        split; [|split; [discriminate|intros [_ H]; congruence]].
        split.
        -- intros [= H].
           pose proof (proj1 (Validate_builds_None _ _) H) as H'.
           split; [exact Hlen|]. split; [reflexivity|].
           intros b Hb. apply H' in Hb. apply protos_lookup in Hb.
           destruct Hb as [Hb|Hb]; [exact Hb|].
           rewrite lookup_empty in Hb. now destruct Hb.
        -- intros (_ & _ & H). f_equal. apply Validate_builds_None.
           intros b Hb. apply protos_lookup. left. now apply H.
    + split; [split; [discriminate|intros (_ & H & _); discriminate]|].
      split; [|reflexivity]. intros _. split; [exact Hlen|].
      now apply nperiods_None.
Qed.

Section Loading.

Variable f0 : F.
Variable json_Unmarshal :
  list Z -> Scenario F -> Scenario F * option json_error.

(** X13: a scenario file that decodes without Builds is given nvars zero
    builds, whose prototype is the empty string; unless nvars is 0 or a
    facility of Facs has the empty name, Load then fails in Validate. *)
Theorem Load_without_Builds_fails (data : list Z) (fname : string)
    (s : option (Scenario F)) (s1 : Scenario F) (n : Z) :
  json_Unmarshal data (default (zero_Scenario f0) s) = (s1, None) ->
  Builds s1 = [] ->
  List.length (MinPower s1) = List.length (MaxPower s1) ->
  nperiods s1 = Some (ilen (MinPower s1)) ->
  nvars s1 = Some n -> 1 <= n ->
  (forall f, In f (Facs s1) -> Proto f <> "") ->
  Load f0 json_Unmarshal (cloudlus.Ok data) fname s
  = Some (set_Builds (replicate (Z.to_nat n) (zero_Build f0))
            (set_File fname s1),
          Some "param prototype '' is not defined in Facs").
Proof.
  intros Hu Hb Hlen Hnp Hnv Hn Hfacs. unfold Load. rewrite Hu.
  cbn [Builds set_File]. rewrite Hb. cbn [ilen List.length].
  rewrite bool_decide_eq_true_2 by reflexivity.
  change (nvars (set_File fname s1)) with (nvars s1). rewrite Hnv.
  cbn [mbind option_bind]. rewrite (proj2 (Z.ltb_ge _ _)) by lia.
  cbn [mbind option_bind]. unfold Validate.
  cbn [MinPower MaxPower set_Builds set_File Facs Builds].
  rewrite bool_decide_eq_false_2 by (unfold ilen; lia).
  change (nperiods (set_Builds _ (set_File fname s1))) with (nperiods s1).
  rewrite Hnp. cbn [mbind option_bind].
  rewrite bool_decide_eq_false_2 by (intros H; now apply H).
  destruct (Z.to_nat n) as [|k] eqn:Ek; [lia|].
  cbn [replicate Validate_builds zero_Build BuildProto].
  destruct (foldl _ ∅ (Facs s1) !! "") as [f|] eqn:E; [|reflexivity].
  exfalso.
  assert (Hs : is_Some (foldl (fun m fac => <[Proto fac := fac]> m) ∅
                          (Facs s1) !! "")) by (rewrite E; eauto).
  apply protos_lookup in Hs as [(f' & Hf & Hk)|Hs].
  - now apply (Hfacs f').
  - rewrite lookup_empty in Hs. now destruct Hs.
Qed.

End Loading.

(** X14: a build with a Life of its own above 0 lives that long, any other
    build as long as its facility.  A build whose lifetime L is 0 or less
    is alive at every time from its Time on; with L > 0 it is alive from
    Time to Time + L, both included; and when Time + L is beyond the
    range of int it is not alive at any time. *)
Theorem Build_Alive_span (b : Build F) (t : Z) :
  - 2 ^ 63 <= Time b < 2 ^ 63 -> - 2 ^ 63 <= Lifetime b < 2 ^ 63 ->
  - 2 ^ 63 <= t < 2 ^ 63 ->
  Lifetime b = (if 0 <? BuildLife b then BuildLife b else Life (fac b))
  /\ (Lifetime b <= 0 -> (Build_Alive b t = true <-> Time b <= t))
  /\ (0 < Lifetime b -> Time b + Lifetime b < 2 ^ 63 ->
      (Build_Alive b t = true <-> Time b <= t <= Time b + Lifetime b))
  /\ (0 < Lifetime b -> 2 ^ 63 <= Time b + Lifetime b ->
      Build_Alive b t = false).
Proof.
  intros HT HL Ht. split; [reflexivity|].
  unfold Build_Alive, Alive, iadd. split; [|split].
  - intros H. rewrite (proj2 (Z.leb_le (Lifetime b) 0)) by lia.
    rewrite orb_true_r, andb_true_r. apply Z.leb_le.
  - intros H Hs. rewrite wrap_id by lia.
    rewrite (proj2 (Z.leb_gt (Lifetime b) 0)) by lia.
    rewrite orb_false_r, andb_true_iff, !Z.leb_le. tauto.
  - intros H Hs.
    assert (Hw : wrap (Time b + Lifetime b) = Time b + Lifetime b - 2 ^ 64).
    { unfold wrap.
      replace (Time b + Lifetime b + 2 ^ 63)
        with (Time b + Lifetime b - 2 ^ 63 + 1 * 2 ^ 64) by lia.
      rewrite Z.mod_add by lia. rewrite Z.mod_small by lia. lia. }
    rewrite Hw. rewrite (proj2 (Z.leb_gt (Lifetime b) 0)) by lia.
    rewrite orb_false_r. apply andb_false_iff.
    destruct (Z.leb_spec (Time b) t); [right|left; reflexivity].
    apply Z.leb_gt. lia.
Qed.

Section Reactors.

Variables (gt0 eq0 : F -> bool).

(** X15: periodFacOrder panics exactly when no facility has a positive Cap;
    otherwise the implicit reactor is the first such facility and the
    variable facilities are the other reactors followed by the facilities
    of Cap 0, which (no Cap being both positive and 0) are fewer than the
    facilities of the scenario. *)
Theorem periodFacOrder_needs_a_reactor (s : Scenario F) :
  (forall c, gt0 c = true -> eq0 c = false) ->
  (periodFacOrder gt0 eq0 s = None
   <-> forall f, In f (Facs s) -> gt0 (Cap f) = false)
  /\ (forall varfacs r0,
        periodFacOrder gt0 eq0 s = Some (varfacs, r0) ->
        reactors gt0 s = r0 :: take (List.length (reactors gt0 s) - 1) varfacs
        /\ varfacs = tail (reactors gt0 s) ++ notreactors eq0 s
        /\ (List.length varfacs < List.length (Facs s))%nat).
Proof.
  intros Hdis. unfold periodFacOrder. split.
  - unfold reactors. split.
    + intros H f Hf. destruct (gt0 (Cap f)) eqn:E; [|reflexivity].
      destruct (List.filter _ (Facs s)) as [|r rs] eqn:Er; [|discriminate].
      assert (Hin : In f (List.filter (fun fac => gt0 (Cap fac)) (Facs s)))
        by (apply filter_In; auto).
      rewrite Er in Hin. destruct Hin.
    + intros H. destruct (List.filter _ (Facs s)) as [|r rs] eqn:Er;
        [reflexivity|].
      assert (Hin : In r (List.filter (fun fac => gt0 (Cap fac)) (Facs s)))
        by (rewrite Er; now left).
      apply filter_In in Hin as [Hin Hr]. rewrite (H r Hin) in Hr.
      discriminate.
  - intros varfacs r0 H.
    destruct (reactors gt0 s) as [|r rs] eqn:Er; [discriminate|].
    injection H as <- <-. cbn [List.length tail].
    replace (S (List.length rs) - 1)%nat with (List.length rs) by lia.
    rewrite take_app_length. split; [reflexivity|]. split; [reflexivity|].
    rewrite length_app.
    assert (Hsum : (List.length (reactors gt0 s)
                    + List.length (notreactors eq0 s)
                    <= List.length (Facs s))%nat).
    { unfold reactors, notreactors. clear Er.
      induction (Facs s) as [|a l IH]; cbn [List.filter List.length]; [lia|].
      destruct (gt0 (Cap a)) eqn:E.
      - rewrite (Hdis _ E). cbn [List.length]. lia.
      - destruct (eq0 (Cap a)); cbn [List.length]; lia. }
    rewrite Er in Hsum. cbn [List.length] in Hsum. lia.
Qed.

End Reactors.

End ScenarioFacts.

(** ** Properties of zip, integrateMid and sampleUniformProb *)

Section SamplingFacts.

Import scen.

Variable F : Type.
Variables (fadd fsub fmul fdiv : F -> F -> F).
Variable fge : F -> F -> bool.
Variable of_int : Z -> F.
Variables (f0 fhalf : F).
Variable Disruption : Type.
Variable Disruption_Time : Disruption -> Z.
Variable Disruption_Prob : Disruption -> F.

Lemma zip_loop (ds : list Disruption) (objs : list F) :
  forall (g : nat -> nat) (k : nat) (acc : list (sample F)),
    (forall i, g i = (k + i)%nat) ->
    (List.length ds <= List.length objs - k)%nat ->
    foldl (fun acc id =>
             samples ← acc;
             o ← objs !! id.1;
             Some (samples
                     ++ [{| X := of_int (Disruption_Time id.2); Y := o |}]))
      (Some acc) (imap (fun i d => (g i, d)) ds)
    = Some (acc ++ zip_with (pair_of of_int Disruption_Time) ds (drop k objs)).
Proof.
  induction ds as [|d ds IH]; intros g k acc Hg Hlen.
  - cbn. now rewrite app_nil_r.
  - cbn [imap foldl fst snd mbind option_bind]. cbn in Hlen.
    rewrite Hg, Nat.add_0_r.
    destruct (objs !! k) as [o|] eqn:Eo.
    2:{ apply lookup_ge_None in Eo. lia. }
    cbn [mbind option_bind].
    rewrite (IH (fun i => g (S i)) (S k)); [|intros i; rewrite Hg; lia|lia].
    rewrite (drop_S _ _ _ Eo). cbn [zip_with].
    now rewrite <- app_assoc.
Qed.

(** X16: zip panics on slices of unequal length.  On slices of equal length n
    it returns 2n samples: n zero samples, with which the slice is made,
    followed by the n pairs of a disruption time and its objective. *)
Theorem zip_puts_zero_samples_first (disrups : list Disruption)
    (objs : list F) :
  (List.length disrups <> List.length objs ->
   zip F of_int f0 Disruption Disruption_Time disrups objs = None)
  /\ (List.length disrups = List.length objs ->
      zip F of_int f0 Disruption Disruption_Time disrups objs
      = Some (replicate (List.length disrups) {| X := f0; Y := f0 |}
                ++ zip_with (pair_of of_int Disruption_Time) disrups objs)
      /\ List.length
           (replicate (List.length disrups) {| X := f0; Y := f0 |}
              ++ zip_with (pair_of of_int Disruption_Time) disrups objs)
         = (2 * List.length disrups)%nat).
Proof.
  unfold zip. split.
  - intros H. now rewrite bool_decide_eq_true_2.
  - intros H. rewrite bool_decide_eq_false_2 by (intros H'; now apply H').
    split.
    + rewrite (zip_loop disrups objs (fun i => i) 0); [reflexivity|auto|lia].
    + rewrite length_app, length_replicate, length_zip_with. lia.
Qed.

Lemma midpoints_S (x1 dx : F) (i : Z) (n : nat) :
  midpoints F fadd fmul of_int fhalf x1 dx i (S n)
  = fadd x1 (fmul (fadd (of_int i) fhalf) dx)
    :: midpoints F fadd fmul of_int fhalf x1 dx (i + 1) n.
Proof.
  unfold midpoints. cbn [seq map]. rewrite Z.add_0_r. f_equal.
  rewrite <- seq_shift, map_map. apply map_ext. intros k.
  do 4 f_equal. lia.
Qed.

Lemma integrate_from_None (fn : F -> option F) (x1 dx : F) (n : nat) :
  forall (i : Z) (tot : F),
    0 <= i -> i + Z.of_nat n < 2 ^ 63 ->
    integrate_from F fadd fmul of_int fhalf fn x1 dx i n tot = None
    <-> exists x, In x (midpoints F fadd fmul of_int fhalf x1 dx i n)
                  /\ fn x = None.
Proof.
  induction n as [|n IH]; intros i tot Hi Hn.
  - cbn. split; [discriminate|]. intros (x & [] & _).
  - rewrite midpoints_S. cbn [integrate_from].
    unfold iadd. rewrite wrap_id by lia.
    destruct (fn (fadd x1 (fmul (fadd (of_int i) fhalf) dx))) as [y|] eqn:Ey;
      cbn [mbind option_bind].
    + rewrite IH by lia. split.
      * intros (x & Hx & Hf). exists x. split; [now right|exact Hf].
      * intros (x & [<-|Hx] & Hf); [congruence|eauto].
    + split; [|reflexivity]. intros _. eexists. split; [now left|exact Ey].
Qed.

(** X17: integrateMid evaluates fn at the midpoints of its ninterval intervals
    and panics exactly when fn panics at one of them; with no interval
    (ninterval <= 0) it returns 0 without evaluating fn. *)
Theorem integrateMid_panics_with_fn (fn : F -> option F) (x1 x2 : F)
    (ninterval : Z) :
  ninterval < 2 ^ 63 ->
  (integrateMid F fadd fsub fmul fdiv of_int f0 fhalf fn x1 x2 ninterval = None
   <-> exists x,
         In x (midpoints F fadd fmul of_int fhalf x1
                 (fdiv (fsub x2 x1) (of_int ninterval)) 0
                 (Z.to_nat ninterval))
         /\ fn x = None)
  /\ (ninterval <= 0 ->
      integrateMid F fadd fsub fmul fdiv of_int f0 fhalf fn x1 x2 ninterval
      = Some f0).
Proof.
  intros Hn. unfold integrateMid. split.
  - apply integrate_from_None; lia.
  - intros H. replace (Z.to_nat ninterval) with 0%nat by lia. reflexivity.
Qed.

Lemma sample_from_spec (fn : F -> option F) (x1 dx sampleA : F) (n : nat) :
  forall (i : Z) (tot : F) (xs : list F),
    0 <= i -> i + Z.of_nat n < 2 ^ 63 ->
    (sample_from F fadd fmul fge of_int fhalf fn x1 dx sampleA i n tot xs
     = None
     <-> exists x, In x (midpoints F fadd fmul of_int fhalf x1 dx i n)
                   /\ fn x = None)
    /\ forall r,
         sample_from F fadd fmul fge of_int fhalf fn x1 dx sampleA i n tot xs
         = Some r ->
         exists more,
           r = xs ++ more
           /\ sublist more (midpoints F fadd fmul of_int fhalf x1 dx i n).
Proof.
  induction n as [|n IH]; intros i tot xs Hi Hn.
  - cbn. split.
    + split; [discriminate|]. intros (x & [] & _).
    + intros r [= <-]. exists []. split; [now rewrite app_nil_r|constructor].
  - rewrite midpoints_S. cbn [sample_from].
    replace (iadd i 1) with (i + 1)
      by (unfold iadd; rewrite wrap_id; lia).
    set (x := fadd x1 (fmul (fadd (of_int i) fhalf) dx)).
    destruct (fn x) as [y|] eqn:Ey; cbn [mbind option_bind].
    + match goal with
      | |- context [sample_from _ _ _ _ _ _ _ _ _ _ _ _ ?t ?l] =>
          destruct (IH (i + 1) t l ltac:(lia) ltac:(lia)) as [IHn IHs]
      end.
      split.
      * rewrite IHn. split.
        -- intros (z & Hz & Hf). exists z. split; [now right|exact Hf].
        -- intros (z & [<-|Hz] & Hf); [congruence|eauto].
      * intros r Hr. destruct (IHs r Hr) as (more & -> & Hsub).
        destruct (fge _ _).
        -- exists (x :: more). split; [now rewrite <- app_assoc|].
           now constructor.
        -- exists more. split; [reflexivity|]. now constructor.
    + split; [|discriminate]. split; [|reflexivity].
      intros _. exists x. split; [now left|exact Ey].
Qed.

(** X18: sampleUniformProb panics exactly when fn panics at the midpoint of
    one of its ninterval*nsample intervals.  What it returns is a
    selection of those midpoints in their order, at most one per
    interval: never more than ninterval*nsample points, and none when
    that product is 0 or less. *)
Theorem sampleUniformProb_selects_midpoints (fn : F -> option F)
    (x1 x2 : F) (nsample ninterval : Z) :
  let n := Z.to_nat (imul ninterval nsample) in
  let mids :=
    midpoints F fadd fmul of_int fhalf x1
      (fdiv (fsub x2 x1) (of_int (imul ninterval nsample))) 0 n in
  (sampleUniformProb F fadd fsub fmul fdiv fge of_int f0 fhalf fn x1 x2
     nsample ninterval = None
   <-> exists x, In x mids /\ fn x = None)
  /\ forall xs,
       sampleUniformProb F fadd fsub fmul fdiv fge of_int f0 fhalf fn x1 x2
         nsample ninterval = Some xs ->
       sublist xs mids /\ (List.length xs <= n)%nat.
Proof.
  intros n mids. unfold sampleUniformProb.
  pose proof (wrap_range (ninterval * nsample)) as Hr. fold (imul ninterval nsample) in Hr.
  pose proof (proj1 (integrateMid_panics_with_fn fn x1 x2
                       (imul ninterval nsample) ltac:(lia))) as Hint.
  fold n in Hint. fold mids in Hint.
  destruct (integrateMid _ _ _ _ _ _ _ _ fn x1 x2 (imul ninterval nsample))
    as [totA|] eqn:Et; cbn [mbind option_bind].
  - match goal with
    | |- context [sample_from _ _ _ _ _ _ _ _ ?dx ?sA 0 _ ?t ?l] =>
        destruct (sample_from_spec fn x1 dx sA n 0 t l ltac:(lia)
                    ltac:(unfold n; lia)) as [Hn Hs]
    end.
    fold n. split; [exact Hn|].
    intros xs Hxs. destruct (Hs xs Hxs) as (more & -> & Hsub).
    cbn [app]. split; [exact Hsub|].
    apply sublist_length in Hsub. unfold midpoints in Hsub.
    rewrite length_map, length_seq in Hsub. exact Hsub.
  - split; [|discriminate]. split; [|reflexivity]. intros _.
    now apply Hint.
Qed.

End SamplingFacts.

(** ** TransformVars and the facilities it indexes *)

Section TransformFacts.

Import scen.

Variable F : Type.
Variables (gt0 eq0 : F -> bool).
Variables (fadd fsub fmul fdiv fmax : F -> F -> F).
Variable ffloor : F -> F.
Variable of_int : Z -> F.
Variable to_int : F -> Z.
Variables (f0 f1 fhalf : F).
Variable range_caperror : gmap string F -> list F.
Variable range_builds : gmap string (list (Build F)) -> list (list (Build F)).

Lemma at_Some {A : Type} (l : list A) (i : Z) (a : A) :
  at_ l i = Some a -> 0 <= i < ilen l.
Proof.
  unfold at_. destruct (Z.leb_spec 0 i); [|discriminate].
  destruct (Z.ltb_spec i (ilen l)); [|discriminate]. lia.
Qed.

Lemma reactor_loop_stops (s : Scenario F) (vars : list F)
    (varfacs : list (Facility F)) (i t : Z) (cap : F) (n : nat) :
  forall (j : Z) (rf : F) (st : schedule F) (j' : Z) (rf' : F)
         (st' : schedule F),
    0 <= j -> j + Z.of_nat n < 2 ^ 62 ->
    reactor_loop F gt0 fadd fsub fmul fdiv fmax ffloor of_int to_int f0 f1
      fhalf s vars varfacs i t cap n j rf st = Some (j', rf', st') ->
    j <= j'
    /\ ((j' < j + Z.of_nat n /\ j' < ilen varfacs)
        \/ (j' = j + Z.of_nat n
            /\ (n = 0%nat \/ j + Z.of_nat n - 1 < ilen varfacs))).
Proof.
  induction n as [|n IH]; intros j rf st j' rf' st' Hj Hn H.
  - cbn in H. injection H as <- _ _. split; [lia|].
    right. split; [lia|now left].
  - cbn [reactor_loop] in H.
    destruct (at_ vars _) as [val|]; [|discriminate].
    cbn [mbind option_bind] in H.
    destruct (at_ varfacs j) as [fa|] eqn:Ef; [|discriminate].
    cbn [mbind option_bind] in H. apply at_Some in Ef.
    destruct (gt0 (Cap fa)).
    + unfold iadd in H. rewrite wrap_id in H by lia.
      apply IH in H; [|lia|lia].
      destruct H as [H0 [[H1 H2]|[H1 H2]]]; (split; [lia|]); [left; lia|right].
      split; [lia|]. right. destruct H2 as [->|H2]; lia.
    + injection H as <- _ _. split; [lia|]. left. lia.
Qed.

Lemma other_loop_runs (s : Scenario F) (vars : list F)
    (varfacs : list (Facility F)) (i t : Z) (n : nat) :
  forall (j : Z) (st st' : schedule F),
    0 <= j -> j + Z.of_nat n < 2 ^ 62 ->
    other_loop F fadd fsub fmul fmax ffloor of_int to_int f0 fhalf s vars
      varfacs i t n j st = Some st' ->
    n = 0%nat \/ j + Z.of_nat n - 1 < ilen varfacs.
Proof.
  induction n as [|n IH]; intros j st st' Hj Hn H; [now left|].
  cbn [other_loop] in H.
  destruct (at_ vars _) as [val|]; [|discriminate].
  cbn [mbind option_bind] in H.
  destruct (at_ varfacs j) as [fa|] eqn:Ef; [|discriminate].
  cbn [mbind option_bind] in H. apply at_Some in Ef.
  unfold iadd in H. rewrite wrap_id in H by lia.
  apply IH in H; [|lia|lia]. right. destruct H as [->|H]; lia.
Qed.

Lemma nvarsPerPeriod_eq (s : Scenario F) :
  ilen (Facs s) < 2 ^ 62 -> nvarsPerPeriod s = ilen (Facs s).
Proof.
  intros H. unfold nvarsPerPeriod, iadd, isub.
  assert (0 <= ilen (Facs s)) by (unfold ilen; lia).
  rewrite (wrap_id (ilen (Facs s) - 1)) by lia. rewrite wrap_id by lia. lia.
Qed.

Lemma varfacs_shorter (s : Scenario F) (varfacs : list (Facility F))
    (r0 : Facility F) :
  (forall c, gt0 c = true -> eq0 c = false) ->
  periodFacOrder gt0 eq0 s = Some (varfacs, r0) ->
  (List.length varfacs < List.length (Facs s))%nat.
Proof.
  intros Hdis H. unfold periodFacOrder in H.
  destruct (reactors gt0 s) as [|r rs] eqn:Er; [discriminate|].
  injection H as <- <-. rewrite length_app.
  assert (Hsum : (List.length (reactors gt0 s)
                  + List.length (notreactors eq0 s)
                  <= List.length (Facs s))%nat).
  { unfold reactors, notreactors. clear Er.
    induction (Facs s) as [|a l IH]; cbn [List.filter List.length]; [lia|].
    destruct (gt0 (Cap a)) eqn:E.
    - rewrite (Hdis _ E). cbn [List.length]. lia.
    - destruct (eq0 (Cap a)); cbn [List.length]; lia. }
  rewrite Er in Hsum. cbn [List.length] in Hsum. lia.
Qed.

Lemma period_builds_panics (s : Scenario F) (vars : list F)
    (varfacs : list (Facility F)) (r0 : Facility F) (i t : Z)
    (st : schedule F) (printed : list F) :
  2 <= ilen (Facs s) < 2 ^ 62 ->
  ilen varfacs < ilen (Facs s) ->
  period_builds F gt0 fadd fsub fmul fdiv fmax ffloor of_int to_int f0 f1
    fhalf range_caperror range_builds s vars varfacs r0 i t st printed
  = None.
Proof.
  intros HN HL. unfold period_builds.
  destruct (at_ (MinPower s) i); [|reflexivity]. cbn [mbind option_bind].
  destruct (at_ (MaxPower s) i); [|reflexivity]. cbn [mbind option_bind].
  destruct (at_ vars _); [|reflexivity]. cbn [mbind option_bind].
  rewrite nvarsPerPeriod_eq by lia.
  destruct (reactor_loop _ _ _ _ _ _ _ _ _ _ _ _ _ _ _ _ _ _ _ _ _ _ _)
    as [[[j rf] st1]|] eqn:E1; [|reflexivity].
  cbn [mbind option_bind].
  apply reactor_loop_stops in E1; [|lia|lia].
  destruct E1 as [Hj0 [[Hj1 Hj2]|[Hj1 Hj2]]]; [|exfalso; lia].
  destruct (other_loop _ _ _ _ _ _ _ _ _ _ _ _ _ _ _ _ _ _) as [st3|] eqn:E2;
    [|reflexivity].
  exfalso. apply other_loop_runs in E2; lia.
Qed.

Lemma foldl_panicked (s : Scenario F) (vars : list F)
    (varfacs : list (Facility F)) (r0 : Facility F)
    (its : list (nat * Z)) :
  foldl (fun acc it =>
           '(st, printed) ← acc;
           period_builds F gt0 fadd fsub fmul fdiv fmax ffloor of_int to_int
             f0 f1 fhalf range_caperror range_builds s vars varfacs r0
             (Z.of_nat it.1) it.2 st printed)
    None its = None.
Proof. induction its as [|it its IH]; [reflexivity|exact IH]. Qed.

Lemma TransformVars_not_Ok (s : Scenario F) (vars : list F) (np : Z) :
  (forall c, gt0 c = true -> eq0 c = false) ->
  2 <= ilen (Facs s) < 2 ^ 62 ->
  nperiods s = Some np -> 1 <= np ->
  forall builds printed,
    TransformVars F gt0 eq0 fadd fsub fmul fdiv fmax ffloor of_int to_int
      f0 f1 fhalf range_caperror range_builds s vars
    <> Some (cloudlus.Ok (builds, printed)).
Proof.
  intros Hdis HN Hnp Hnp1 builds printed. unfold TransformVars.
  destruct (Validate s) as [[e|]|]; cbn [mbind option_bind]; try discriminate.
  unfold nvars. rewrite Hnp. cbn [mbind option_bind].
  destruct (bool_decide _); [discriminate|].
  destruct (periodFacOrder gt0 eq0 s) as [[varfacs r0]|] eqn:Ep;
    cbn [mbind option_bind]; [|discriminate].
  pose proof (varfacs_shorter s varfacs r0 Hdis Ep) as HL.
  unfold periodTimes. rewrite Hnp. cbn [mbind option_bind].
  rewrite (proj2 (Z.ltb_ge _ _)) by lia. cbn [mbind option_bind].
  destruct (Z.to_nat np) as [|k] eqn:Ek; [lia|].
  cbn [seq map imap foldl mbind option_bind fst snd].
  rewrite period_builds_panics by (unfold ilen in *; lia).
  rewrite foldl_panicked. discriminate.
Qed.

(** X19: for a scenario with two or more facilities and at least one
    build period TransformVars never returns a build schedule: it
    returns an error or panics, and it panics whenever the scenario is
    valid and vars has the length it asks for.  The variable facilities
    are fewer than nvarsPerPeriod (no Cap being both positive and 0), and
    the two loops over j between them read varfacs[j] up to j =
    nvarsPerPeriod - 1. *)
Theorem TransformVars_returns_no_schedule (s : Scenario F) (vars : list F)
    (np : Z) :
  (forall c, gt0 c = true -> eq0 c = false) ->
  2 <= ilen (Facs s) < 2 ^ 62 ->
  nperiods s = Some np -> 1 <= np ->
  (TransformVars F gt0 eq0 fadd fsub fmul fdiv fmax ffloor of_int to_int
     f0 f1 fhalf range_caperror range_builds s vars = None
   \/ exists e,
        TransformVars F gt0 eq0 fadd fsub fmul fdiv fmax ffloor of_int to_int
          f0 f1 fhalf range_caperror range_builds s vars
        = Some (cloudlus.Err e))
  /\ (Validate s = Some None -> nvars s = Some (ilen vars) ->
      TransformVars F gt0 eq0 fadd fsub fmul fdiv fmax ffloor of_int to_int
        f0 f1 fhalf range_caperror range_builds s vars = None).
Proof.
  intros Hdis HN Hnp Hnp1.
  pose proof (TransformVars_not_Ok s vars np Hdis HN Hnp Hnp1) as Hno.
  destruct (TransformVars _ _ _ _ _ _ _ _ _ _ _ _ _ _ _ _ s vars)
    as [[[builds printed]|e]|] eqn:E.
  - now destruct (Hno builds printed).
  - split; [right; eauto|]. intros Hv Hn. exfalso.
    unfold TransformVars in E. rewrite Hv, Hn in E.
    cbn [mbind option_bind] in E.
    rewrite bool_decide_eq_false_2 in E by (intros H; now apply H).
    cbn zeta in E.
    destruct (periodFacOrder gt0 eq0 s) as [[varfacs r0]|];
      cbn [mbind option_bind] in E; [|discriminate].
    destruct (periodTimes s) as [ts|]; cbn [mbind option_bind] in E;
      [|discriminate].
    destruct (foldl _ _ _) as [[st pr]|]; cbn [mbind option_bind] in E;
      discriminate.
  - split; [now left|reflexivity].
Qed.

End TransformFacts.

(** ** Build periods at the edge, and the names of the variables *)

Section PeriodEdges.

Import scen.

Variable F : Type.

(** X20: the division in nperiods truncates towards zero: when the time
    left after BuildOffset and TrailingDur falls short of one time step
    by less than a BuildPeriod, there still is one build period, and its
    build time BuildOffset + 1 lies within the trailing time steps. *)
Theorem short_simulation_still_builds_once (s : Scenario F) :
  small (SimDur s) -> small (BuildOffset s) -> small (TrailingDur s) ->
  small (BuildPeriod s) ->
  - BuildPeriod s < SimDur s - BuildOffset s - TrailingDur s - 2 < 0 ->
  nperiods s = Some 1
  /\ periodTimes s = Some [BuildOffset s + 1]
  /\ SimDur s - TrailingDur s - 1 < BuildOffset s + 1.
Proof.
  intros Hd Ho Ht Hb Hw.
  assert (Hp : 0 < BuildPeriod s) by lia.
  pose proof (nperiods_eq F s Hd Ho Ht Hp) as Hnp.
  set (w := SimDur s - BuildOffset s - TrailingDur s - 2) in *.
  assert (Hq : Z.quot w (BuildPeriod s) = 0).
  { replace w with (- (- w)) by lia. rewrite Z.quot_opp_l by lia.
    rewrite Z.quot_small by lia. reflexivity. }
  rewrite Hq in Hnp. change (0 + 1) with 1 in Hnp.
  split; [exact Hnp|]. split; [|unfold w in Hw; lia].
  unfold periodTimes. rewrite Hnp. cbn [mbind option_bind].
  change (1 <? 0) with false. change (Z.to_nat 1) with 1%nat.
  cbn [seq map]. change (Z.of_nat 0) with 0.
  rewrite (timeOf_eq F s 0 Ho Hb) by (unfold small; lia).
  f_equal. f_equal. lia.
Qed.

Lemma set_name_ok (names : list string) (i : nat) (v : string) :
  (i < List.length names)%nat -> Z.of_nat (List.length names) < 2 ^ 62 ->
  set_name names (Z.of_nat i) v = Some (<[i := v]> names).
Proof.
  intros Hi Hl. unfold set_name, ilen.
  rewrite (proj2 (Z.leb_le _ _)) by lia.
  rewrite (proj2 (Z.ltb_lt _ _)) by lia. cbn. now rewrite Nat2Z.id.
Qed.

Lemma VarNames_inner_fills (np f : nat) (ts : list Z) :
  forall (off : nat) (names : list string),
    (off + List.length ts = np)%nat ->
    (f * np + np <= List.length names)%nat ->
    Z.of_nat (List.length names) < 2 ^ 30 ->
    exists names',
      foldl (fun acc nt =>
               names ← acc;
               set_name names
                 (iadd (imul (Z.of_nat f) (Z.of_nat np)) (Z.of_nat nt.1))
                 (var_name (Z.of_nat f) nt.2))
        (Some names) (imap (fun k t => ((off + k)%nat, t)) ts)
      = Some names'
      /\ List.length names' = List.length names
      /\ (forall k t, ts !! k = Some t ->
            names' !! (f * np + off + k)%nat
            = Some (var_name (Z.of_nat f) t))
      /\ (forall idx, (idx < f * np + off)%nat \/ (f * np + np <= idx)%nat ->
            names' !! idx = names !! idx).
Proof.
  induction ts as [|t ts IH]; intros off names Hoff Hlen Hsmall.
  - exists names. cbn. repeat split; auto. intros k t Hk. discriminate.
  - cbn [imap foldl fst snd mbind option_bind]. cbn in Hoff.
    rewrite Nat.add_0_r.
    assert (Hidx : iadd (imul (Z.of_nat f) (Z.of_nat np)) (Z.of_nat off)
                   = Z.of_nat (f * np + off)).
    { unfold iadd, imul.
      assert (0 <= Z.of_nat f * Z.of_nat np < 2 ^ 30) by nia.
      rewrite (wrap_id (Z.of_nat f * Z.of_nat np)) by lia.
      rewrite wrap_id by lia. lia. }
    rewrite Hidx, set_name_ok by lia.
    destruct (IH (S off) (<[(f * np + off)%nat := var_name (Z.of_nat f) t]> names))
      as (names' & Hrun & Hl & Hfill & Hkeep);
      [lia|rewrite length_insert; lia|rewrite length_insert; lia|].
    exists names'. split.
    + rewrite <- Hrun. f_equal. apply imap_ext. intros k x _. cbn.
      f_equal. lia.
    + rewrite length_insert in Hl. split; [exact Hl|]. split.
      * intros [|k] t' Hk.
        -- cbn in Hk. injection Hk as <-. rewrite Nat.add_0_r.
           rewrite Hkeep by lia. apply list_lookup_insert_eq. lia.
        -- cbn in Hk. specialize (Hfill k t' Hk).
           rewrite <- Hfill. f_equal. lia.
      * intros idx Hidx'. rewrite Hkeep by lia.
        apply list_lookup_insert_ne. lia.
Qed.

Lemma VarNames_inner_eq (np f : nat) (ts : list Z) (names : list string) :
  VarNames_inner (Z.of_nat np) (Z.of_nat f) ts names
  = foldl (fun acc nt =>
             names ← acc;
             set_name names
               (iadd (imul (Z.of_nat f) (Z.of_nat np)) (Z.of_nat nt.1))
               (var_name (Z.of_nat f) nt.2))
      (Some names) (imap (fun k t => ((0 + k)%nat, t)) ts).
Proof. reflexivity. Qed.

Lemma periodTimes_eq (s : Scenario F) (np : Z) :
  nperiods s = Some np -> 0 <= np ->
  periodTimes s
  = Some (map (fun i => timeOf s (Z.of_nat i)) (seq 0 (Z.to_nat np))).
Proof.
  intros Hnp H. unfold periodTimes. rewrite Hnp. cbn [mbind option_bind].
  now rewrite (proj2 (Z.ltb_ge _ _)) by lia.
Qed.

Lemma VarNames_outer_fills (s : Scenario F) (np nf : nat) (m : nat) :
  nperiods s = Some (Z.of_nat np) ->
  forall (f0 : nat) (names : list string),
    (f0 + m = nf)%nat ->
    List.length names = (nf * np)%nat ->
    Z.of_nat (nf * np) < 2 ^ 30 ->
    exists names',
      foldl (fun acc f =>
               names ← acc;
               times ← periodTimes s;
               VarNames_inner (Z.of_nat np) (Z.of_nat f) times names)
        (Some names) (seq f0 m)
      = Some names'
      /\ List.length names' = List.length names
      /\ (forall f k, (f0 <= f < nf)%nat -> (k < np)%nat ->
            names' !! (f * np + k)%nat
            = Some (var_name (Z.of_nat f) (timeOf s (Z.of_nat k))))
      /\ (forall idx, (idx < f0 * np)%nat -> names' !! idx = names !! idx).
Proof.
  intros Hnp.
  set (outer := fun (acc : option (list string)) (f : nat) =>
                  names ← acc;
                  times ← periodTimes s;
                  VarNames_inner (Z.of_nat np) (Z.of_nat f) times names).
  induction m as [|m IH]; intros f0 names Hf Hlen Hsmall.
  - exists names. cbn. repeat split; auto. intros f k Hfk. lia.
  - destruct (VarNames_inner_fills np f0
                (map (fun i => timeOf s (Z.of_nat i)) (seq 0 np)) 0 names)
      as (names1 & Hrun & Hl1 & Hfill & Hkeep);
      [rewrite length_map, length_seq; lia|nia|lia|].
    assert (Hstep : outer (Some names) f0 = Some names1).
    { unfold outer. cbn [mbind option_bind].
      rewrite (periodTimes_eq s _ Hnp) by lia. cbn [mbind option_bind].
      rewrite Nat2Z.id, VarNames_inner_eq. exact Hrun. }
    change (seq f0 (S m)) with (f0 :: seq (S f0) m).
    change (foldl outer (Some names) (f0 :: seq (S f0) m))
      with (foldl outer (outer (Some names) f0) (seq (S f0) m)).
    rewrite Hstep.
    destruct (IH (S f0) names1) as (names' & Hrun' & Hl' & Hfill' & Hkeep');
      [lia|lia|lia|].
    exists names'. split; [exact Hrun'|]. split; [lia|]. split.
    + intros f k Hfk Hk. destruct (decide (f = f0)) as [->|Hne].
      * rewrite Hkeep' by nia.
        replace (f0 * np + k)%nat with (f0 * np + 0 + k)%nat by lia.
        apply Hfill. rewrite list_lookup_fmap, lookup_seq_lt by lia.
        reflexivity.
      * apply Hfill'; lia.
    + intros idx Hidx. rewrite Hkeep' by nia. apply Hkeep. lia.
Qed.

(** X21: VarNames returns one name for each facility and build period,
    facility by facility: the name at index f*nperiods + n is "f", the
    index f, "_t" and the build time of period n.  Every index it
    writes lies within the names, so it does not panic. *)
Theorem VarNames_lists_facility_by_facility (s : Scenario F) (np : nat) :
  nperiods s = Some (Z.of_nat np) ->
  ilen (Facs s) < 2 ^ 30 -> ilen (Facs s) * Z.of_nat np < 2 ^ 30 ->
  exists names,
    VarNames s = Some names
    /\ List.length names = (List.length (Facs s) * np)%nat
    /\ forall f k, (f < List.length (Facs s))%nat -> (k < np)%nat ->
         names !! (f * np + k)%nat
         = Some (var_name (Z.of_nat f) (timeOf s (Z.of_nat k))).
Proof.
  intros Hnp Hnf Hprod. unfold ilen in *. unfold VarNames, nvars.
  rewrite Hnp. cbn [mbind option_bind].
  assert (Hpp : nvarsPerPeriod s = Z.of_nat (List.length (Facs s))).
  { unfold nvarsPerPeriod, iadd, isub, ilen.
    rewrite (wrap_id (_ - 1)) by lia. rewrite wrap_id by lia. lia. }
  assert (Hn : imul (nvarsPerPeriod s) (Z.of_nat np)
               = Z.of_nat (List.length (Facs s) * np)).
  { rewrite Hpp. unfold imul. rewrite wrap_id by nia. lia. }
  rewrite Hn, (proj2 (Z.ltb_ge _ _)) by lia. rewrite Nat2Z.id.
  destruct (VarNames_outer_fills s np (List.length (Facs s))
              (List.length (Facs s)) Hnp 0
              (replicate (List.length (Facs s) * np) ""))
    as (names & Hrun & Hl & Hfill & _);
    [lia|apply length_replicate|lia|].
  exists names. split; [exact Hrun|].
  rewrite length_replicate in Hl. split; [exact Hl|].
  intros f k Hf Hk. apply Hfill; lia.
Qed.

End PeriodEdges.

(** ** The further theorems at concrete inputs *)

Section MoreExamples.

Import hex cloudlus scen.

Lemma is_Id_idA : is_Id idA.
Proof. split; [reflexivity|]. unfold idA. cbn. repeat constructor; lia. Qed.

Lemma convid_ignores_what_follows_an_Id_example :
  convid (EncodeToString idA +:+ "ff") = Some idA.
Proof.
  exact (convid_ignores_what_follows_an_Id idA "ff" is_Id_idA eq_refl eq_refl).
Defined.

Lemma pushed_Complete_job_is_retrieved_example :
  exists s1 out s2 hdr,
    exec byte_size 1 (EvPush doneA) NewServer = Some (s1, out)
    /\ retrieve byte_size status_text no_faults
         ("/job/retrieve/" +:+ EncodeToString (Id doneA)) 5%positive 2 s1
       = Some (s2, HttpArchive hdr (Outfiles doneA)).
Proof.
  apply (pushed_Complete_job_is_retrieved byte_size status_text no_faults
           doneA 5%positive 1 2 NewServer is_Id_idA eq_refl).
  - vm_compute. discriminate.
  - intros fd _. split; reflexivity.
  - reflexivity.
  - reflexivity.
Defined.

Lemma submitInfile_reply_names_the_job_example :
  exists s1 body s2,
    submitInfile byte_size (Ok [120]) jobA 1 NewServer
    = Some (s1, HttpText [("Access-Control-Allow-Origin", "*")] body)
    /\ status byte_size marshal_text None ("/job/status/" +:+ body)
         5%positive 2 s1
       = Some (s2, HttpText [] "01010101010101010101010101010101 queued").
Proof.
  apply (submitInfile_reply_names_the_job byte_size marshal_text [120] jobA
           None 5%positive 1 2 NewServer is_Id_idA).
  vm_compute. discriminate.
Defined.

Lemma fetched_job_is_observed_Running_example :
  exists s1 s2 p,
    exec byte_size 1 (EvSubmit jobA None) NewServer = Some (s1, [])
    /\ observed s1 (Id jobA) = Some StatusQueued
    /\ RPC_Fetch byte_size idB 9%positive 2 s1 = Some (s2, Ok p)
    /\ alljobs s2 = alljobs s1
    /\ observed s2 (Id jobA) = Some StatusRunning.
Proof.
  apply (fetched_job_is_observed_Running byte_size jobA None idB 9%positive
           1 2 NewServer eq_refl).
  vm_compute. discriminate.
Defined.

Lemma second_waiter_replaces_first_example :
  exists s1 s2 s3 j3,
    exec byte_size 1 (EvSubmit jobA (Some 7%positive)) NewServer
    = Some (s1, [])
    /\ submitchans s1 !! Id jobA = Some 7%positive
    /\ exec byte_size 2 (EvSubmit jobA (Some 8%positive)) s1 = Some (s2, [])
    /\ submitchans s2 !! Id jobA = Some 8%positive
    /\ exec byte_size 3 (EvPush doneA) s2
       = Some (s3, [Send 8%positive (Some j3)])
    /\ recv 7%positive [Send 8%positive (Some j3)] = None
    /\ submitchans s3 !! Id jobA = None.
Proof.
  apply (second_waiter_replaces_first byte_size jobA jobA doneA 7%positive
           8%positive 1 2 3 NewServer eq_refl eq_refl).
  discriminate.
Defined.

Lemma no_job_is_fetched_twice_example :
  exists s subs fets,
    handed byte_size
      [(1, EvSubmit jobA None); (2, EvSubmit jobB None);
       (3, EvFetch 9%positive); (4, EvFetch 9%positive)] NewServer
    = Some (s, subs, fets)
    /\ NoDup fets.
Proof.
  eexists _, _, _. split.
  - vm_compute. reflexivity.
  - refine (proj1 (no_job_is_fetched_twice byte_size
                     [(1, EvSubmit jobA None); (2, EvSubmit jobB None);
                      (3, EvFetch 9%positive); (4, EvFetch 9%positive)]
                     _ _ _ _)).
    vm_compute. reflexivity.
Defined.

Lemma findLine_line_and_column_example :
  findLine [97; 98; 10; 99; 100] 4 = Some (2, 2)
  /\ findLine [97; 98; 10; 99; 100] 6 = None.
Proof.
  destruct (findLine_line_and_column [97; 98; 10; 99; 100] 4
              ltac:(vm_compute; reflexivity)) as [_ H1].
  destruct (findLine_line_and_column [97; 98; 10; 99; 100] 6
              ltac:(vm_compute; reflexivity)) as [H2 _].
  split.
  - apply H1. vm_compute. discriminate.
  - apply H2. vm_compute. reflexivity.
Defined.

Lemma small_demo :
  small (SimDur demo) /\ small (BuildOffset demo) /\ small (TrailingDur demo)
  /\ small (BuildPeriod demo).
Proof. unfold small. cbn. lia. Qed.

Lemma periodOf_timeOf_example :
  periodOf demo (timeOf demo 3 + 5) = Some 3.
Proof.
  destruct small_demo as (_ & Ho & _ & Hb).
  apply (periodOf_timeOf Q demo 3 5 Ho Hb); [unfold small|cbn]; lia.
Defined.

Lemma periodTimes_fit_the_window_example :
  exists np ts,
    nperiods demo = Some np /\ 1 <= np
    /\ periodTimes demo = Some ts
    /\ ilen ts = np
    /\ forall i t, ts !! i = Some t ->
         t = BuildOffset demo + 1 + Z.of_nat i * BuildPeriod demo
         /\ BuildOffset demo + 1 <= t <= SimDur demo - TrailingDur demo - 1.
Proof.
  destruct small_demo as (Hd & Ho & Ht & Hb).
  apply (periodTimes_fit_the_window Q demo Hd Ho Ht Hb); cbn; lia.
Defined.

Lemma Load_without_Builds_fails_example :
  Load (inject_Z 0) decode_demo (Ok [123; 125]) "demo.json" None
  = Some (set_Builds (replicate 36 (zero_Build (inject_Z 0)))
            (set_File "demo.json" demo),
          Some "param prototype '' is not defined in Facs").
Proof.
  apply (Load_without_Builds_fails Q (inject_Z 0) decode_demo [123; 125]
           "demo.json" None demo 36 eq_refl eq_refl eq_refl).
  - vm_compute. reflexivity.
  - vm_compute. reflexivity.
  - lia.
  - intros f [<-|[<-|[]]]; discriminate.
Defined.

Lemma Build_Alive_span_example :
  Build_Alive old_lwr 725 = true /\ Build_Alive old_lwr 726 = false.
Proof.
  destruct (Build_Alive_span Q old_lwr 725) as (_ & _ & H1 & _);
    [cbn; lia..|].
  destruct (Build_Alive_span Q old_lwr 726) as (_ & _ & H2 & _);
    [cbn; lia..|].
  split.
  - apply H1; cbn; lia.
  - apply not_true_is_false. intros E.
    apply (H2 ltac:(cbn; lia) ltac:(cbn; lia)) in E. cbn in E. lia.
Defined.

Lemma Qgt0_not_Qeq0 (c : Q) : Qgt0 c = true -> Qeq0 c = false.
Proof.
  unfold Qgt0, Qeq0, Qlt_bool. intros H.
  destruct (Qeq_bool c (inject_Z 0)) eqn:E; [|reflexivity].
  apply Qeq_bool_iff in E.
  assert (Hle : Qle_bool c (inject_Z 0) = true).
  { apply Qle_bool_iff. rewrite E. apply Qle_refl. }
  rewrite Hle in H. discriminate.
Qed.

Lemma periodFacOrder_needs_a_reactor_example :
  periodFacOrder Qgt0 Qeq0 demo = Some ([repo], lwr)
  /\ periodFacOrder Qgt0 Qeq0
       (set_Builds [] {| SimDur := 240; BuildOffset := 1; TrailingDur := 24;
                         CyclusTmpl := ""; BuildPeriod := 12;
                         NuclideCost := ∅; Discount := inject_Z 0;
                         Facs := [repo]; MinPower := []; MaxPower := [];
                         Builds := []; Addr := ""; File := "";
                         Handle := "" |})
     = None.
Proof.
  split; [reflexivity|].
  apply (proj1 (periodFacOrder_needs_a_reactor Q Qgt0 Qeq0 _ Qgt0_not_Qeq0)).
  intros f [<-|[]]. reflexivity.
Defined.

Lemma integrateMid_panics_with_fn_example :
  integrateMidQ (interpolateQ [pt 3 4]) (inject_Z 0) (inject_Z 10) 0
  = Some (inject_Z 0)
  /\ integrateMidQ (interpolateQ [pt 3 4]) (inject_Z 0) (inject_Z 10) 2
     = None.
Proof.
  split.
  - apply (integrateMid_panics_with_fn Q Qplus Qminus Qmult Qdiv inject_Z
             (inject_Z 0) (1 # 2) (interpolateQ [pt 3 4]) (inject_Z 0)
             (inject_Z 10) 0); [vm_compute; reflexivity|lia].
  - apply (integrateMid_panics_with_fn Q Qplus Qminus Qmult Qdiv inject_Z
             (inject_Z 0) (1 # 2) (interpolateQ [pt 3 4]) (inject_Z 0)
             (inject_Z 10) 2); [vm_compute; reflexivity|].
    eexists. split; [left; reflexivity|reflexivity].
Defined.

Lemma TransformVars_returns_no_schedule_example :
  TransformVarsQ demo (replicate 36 (inject_Z 0)) = None.
Proof.
  apply (proj2 (TransformVars_returns_no_schedule Q Qgt0 Qeq0 Qplus Qminus
                  Qmult Qdiv Qmax_bool (fun x => inject_Z (Qfloor x))
                  inject_Z Qfloor (inject_Z 0) (inject_Z 1) (1 # 2)
                  (fun m => (map_to_list m).*2) (fun m => (map_to_list m).*2)
                  demo (replicate 36 (inject_Z 0)) 18 Qgt0_not_Qeq0
                  ltac:(unfold ilen; cbn; lia) ltac:(vm_compute; reflexivity)
                  ltac:(lia))).
  - vm_compute. reflexivity.
  - vm_compute. reflexivity.
Defined.

Lemma short_simulation_still_builds_once_example :
  nperiods late = Some 1
  /\ periodTimes late = Some [10]
  /\ SimDur late - TrailingDur late - 1 < BuildOffset late + 1.
Proof.
  apply (short_simulation_still_builds_once Q late);
    unfold small; cbn; lia.
Defined.

Lemma VarNames_lists_facility_by_facility_example :
  exists names,
    VarNames demo = Some names
    /\ List.length names = 36%nat
    /\ names !! 20%nat = Some "f1_t26".
Proof.
  destruct (VarNames_lists_facility_by_facility Q demo 18
              ltac:(vm_compute; reflexivity) ltac:(unfold ilen; cbn; lia)
              ltac:(unfold ilen; cbn; lia)) as (names & H1 & H2 & H3).
  exists names. split; [exact H1|]. split; [exact H2|].
  change 20%nat with (1 * 18 + 2)%nat.
  rewrite (H3 1%nat 2%nat) by (cbn; lia). vm_compute. reflexivity.
Defined.


End MoreExamples.
